(** * deatomize: classification and rollback of aborted chunked uploads

    A shallow embedding of [main.go].  Records live on a heap and are
    handled through pointers, as the Go slices [[]*record] do; the EOS
    client is an interface whose answers the program cannot predict; the
    calls made to it and the stores to the [Versions] field are kept in a
    chronological event log.  Console output is not modelled. *)

From Stdlib Require Import ZArith Lia String Ascii.
From stdpp Require Import base option list sorting strings.

Local Open Scope Z_scope.

(** ** Data model *)

(** [type status uint32] with its [iota] constants, in declaration order. *)
Inductive status : Set :=
  | notNasty
  | repairable
  | nastyNotChunk
  | nastyNoVersions
  | nastyInvalidVersion
  | nastyNotExistsAnymore.

Definition status_code (s : status) : Z :=
  match s with
  | notNasty => 0
  | repairable => 1
  | nastyNotChunk => 2
  | nastyNoVersions => 3
  | nastyInvalidVersion => 4
  | nastyNotExistsAnymore => 5
  end.

#[global] Instance status_eq_dec : EqDecision status.
Proof. solve_decision. Defined.

(** The fields of [eosclient.FileInfo] that [main.go] reads.  [Size] and
    [MTimeSec] are unsigned 64-bit integers, kept as [Z]. *)
Module eosclient.
Record FileInfo : Set := mkFileInfo {
  File : string;
  Size : Z;
  MTimeSec : Z
}.

(** The Go [error] values the client hands back; only "not found" is told
    apart from the rest. *)
Inductive error : Set := ErrNotFound | ErrOther.
End eosclient.

Abbreviation FileInfo := eosclient.FileInfo.

#[global] Instance FileInfo_eq_dec : EqDecision FileInfo.
Proof. solve_decision. Defined.

(** [type record struct].  [Date] is the zero [time.Time] ([None]) or the
    Unix time in seconds handed to [time.Unix]; [ValidVersion] is a pointer
    that may be nil. *)
Record record : Type := mkRecord {
  FXID : string;
  Handled : bool;
  Size : Z;
  Date : option Z;
  File : string;
  Status : status;
  Versions : list FileInfo;
  ValidVersion : option FileInfo
}.

Definition set_File (r : record) (f : string) : record :=
  mkRecord (FXID r) (Handled r) (Size r) (Date r) f (Status r) (Versions r) (ValidVersion r).
Definition set_Handled (r : record) (h : bool) : record :=
  mkRecord (FXID r) h (Size r) (Date r) (File r) (Status r) (Versions r) (ValidVersion r).
Definition set_Status (r : record) (s : status) : record :=
  mkRecord (FXID r) (Handled r) (Size r) (Date r) (File r) s (Versions r) (ValidVersion r).
Definition set_Versions (r : record) (vs : list FileInfo) : record :=
  mkRecord (FXID r) (Handled r) (Size r) (Date r) (File r) (Status r) vs (ValidVersion r).
Definition set_ValidVersion (r : record) (v : option FileInfo) : record :=
  mkRecord (FXID r) (Handled r) (Size r) (Date r) (File r) (Status r) (Versions r) v.

(** [type skipped struct]; a counter never exceeds the number of records. *)
Record skipped : Set := mkSkipped {
  Recycle : nat;
  SkVersions : nat;
  Atomic : nat
}.

(** ** Size classification *)

(** [func isChunked(size uint64) bool]; a [uint64] is kept as [Z], and the
    only arithmetic on it is this remainder. *)
Definition isChunked (size : Z) : bool :=
  if size mod (10 * 1000000) =? 0 then true else false.

(** ** Go library functions

    [sort], [path], [strconv] and [strings] are not part of the repository.
    [sort.Slice] is taken with the contract its documentation gives: the
    result is a rearrangement of the slice, ordered by [less] whenever [less]
    is a strict weak ordering; the order of equal elements is left open
    ("the sort is not guaranteed to be stable").  The comparison closure of
    the source reads the slice being sorted at two indices, which is a
    comparison of the two elements stored there. *)

(** No element is [less] than one that stands before it. *)
Definition sorted_by {A} (less : A -> A -> bool) : list A -> Prop :=
  StronglySorted (fun a b => less b a = false).

(** [less] is asymmetric and "not less" is transitive. *)
Definition strict_weak {A} (less : A -> A -> bool) : Prop :=
  (forall a b, less a b = true -> less b a = false) /\
  (forall a b c, less b a = false -> less c b = false -> less c a = false).

(** What the program takes from Go's library. *)
Class GoRuntime : Type := {
  sort_Slice : (FileInfo -> FileInfo -> bool) -> list FileInfo -> list FileInfo;
  sort_Slice_perm : forall less l, sort_Slice less l ≡ₚ l;
  sort_Slice_sorted : forall less l,
    strict_weak less -> sorted_by less (sort_Slice less l);
  path_Base : string -> string;
  strconv_ParseInt : string -> option Z;
  strings_TrimSpace : string -> string
}.

(** [strings.Contains]: [substr] occurs somewhere in [s]. *)
Fixpoint strings_Contains (s substr : string) : bool :=
  String.prefix substr s ||
  match s with
  | EmptyString => false
  | String _ s' => strings_Contains s' substr
  end.

(** ** The EOS client

    An interface over an opaque store [B]: every call may change the store
    and answers with a value or an error.  The context, user and group
    arguments are the same in every call and are part of the client. *)
Class EosClient (B : Type) : Type := {
  GetFileInfoByFXID : B -> string -> B * (eosclient.error + FileInfo);
  ListVersions : B -> string -> B * (eosclient.error + list FileInfo);
  RollbackToVersion : B -> string -> string -> B * option eosclient.error
}.

(** ** Version resolution on one record *)

Section Resolver.
Context {rt : GoRuntime}.

(** The closure given to [sort.Slice]:
    [versions[i].MTimeSec > versions[j].MTimeSec]. *)
Definition lessMTime (a b : FileInfo) : bool :=
  eosclient.MTimeSec b <? eosclient.MTimeSec a.

(** [func sortVersions(versions []*eosclient.FileInfo)], in place. *)
Definition sortVersions (versions : list FileInfo) : list FileInfo :=
  sort_Slice lessMTime versions.

(** The [range r.Versions] loop of [haveValidVersion]. *)
Fixpoint haveValidVersion_scan (r : record) (vs : list FileInfo) : bool * record :=
  match vs with
  | [] => (false, r)
  | v :: rest =>
      if isChunked (eosclient.Size v) then haveValidVersion_scan r rest
      else (true, set_ValidVersion (set_Status r notNasty) (Some v))
  end.

(** [func haveValidVersion(r *record) bool]; the record after the call is
    the second component. *)
Definition haveValidVersion (r : record) : bool * record :=
  let r := set_Versions r (sortVersions (Versions r)) in
  haveValidVersion_scan r (Versions r).

End Resolver.

(** ** The run: heap, client store and event log *)

(** A [*record]: the address of a record on the heap.  Dereferencing an
    address that holds no record is Go's nil-pointer panic. *)
Definition ptr : Set := nat.

Inductive event : Set :=
  | EvGetFileInfo (fxid : string)
  | EvListVersions (path : string)
  | EvRollback (path version : string)
  | EvSetVersions (r : ptr).   (* a store [r.Versions = versions] *)

#[global] Instance event_eq_dec : EqDecision event.
Proof. solve_decision. Defined.

(** How a run ends early: [log.Fatal] or a run-time panic. *)
Inductive abort : Set := Fatal | Panic.

Section Run.
Context {B : Type} {client : EosClient B} {rt : GoRuntime}.

Record world : Type := mkWorld {
  heap : list record;
  eos : B;
  events : list event
}.

Inductive outcome (A : Type) : Type :=
  | Done (a : A) (w : world)
  | Abort (k : abort) (w : world).
Arguments Done {A} a w.
Arguments Abort {A} k w.

Definition M (A : Type) : Type := world -> outcome A.

Definition ret {A} (a : A) : M A := fun w => Done a w.

Definition bind {A C} (m : M A) (f : A -> M C) : M C :=
  fun w => match m w with
           | Done a w' => f a w'
           | Abort k w' => Abort k w'
           end.

Definition fatal {A} : M A := fun w => Abort Fatal w.
Definition panic {A} : M A := fun w => Abort Panic w.

Definition emit (e : event) : M unit :=
  fun w => Done tt (mkWorld (heap w) (eos w) (events w ++ [e])).

(** [&record{...}] *)
Definition alloc (r : record) : M ptr :=
  fun w => Done (length (heap w)) (mkWorld (heap w ++ [r]) (eos w) (events w)).

(** Reading the record behind [p]. *)
Definition load (p : ptr) : M record :=
  fun w => match heap w !! p with
           | Some r => Done r w
           | None => Abort Panic w
           end.

(** Writing the record behind [p] back. *)
Definition store (p : ptr) (r : record) : M unit :=
  fun w => Done tt (mkWorld (<[p:=r]> (heap w)) (eos w) (events w)).

Definition callGetFileInfoByFXID (fxid : string) : M (eosclient.error + FileInfo) :=
  fun w => let '(b, res) := GetFileInfoByFXID (eos w) fxid in
           Done res (mkWorld (heap w) b (events w ++ [EvGetFileInfo fxid])).

Definition callListVersions (path : string) : M (eosclient.error + list FileInfo) :=
  fun w => let '(b, res) := ListVersions (eos w) path in
           Done res (mkWorld (heap w) b (events w ++ [EvListVersions path])).

Definition callRollbackToVersion (path version : string) : M (option eosclient.error) :=
  fun w => let '(b, res) := RollbackToVersion (eos w) path version in
           Done res (mkWorld (heap w) b (events w ++ [EvRollback path version])).

Declare Scope run_scope.
Delimit Scope run_scope with run.
Notation "x <- m ;; f" := (bind m (fun x => f))
  (at level 20, m at level 99, f at level 200, only parsing) : run_scope.
Notation "m ;; f" := (bind m (fun _ => f))
  (at level 100, f at level 200, only parsing, right associativity) : run_scope.
Local Open Scope run_scope.

(** ** Record Loader *)

(** What [csv.Reader.Read] returns before [io.EOF]: a line split into its
    fields, or an error. *)
Inductive csvRead : Set :=
  | CsvFields (each : list string)
  | CsvError.

(** The [for] loop of [getRecords] over the lines still to be read. *)
Fixpoint getRecords_loop (lines : list csvRead) (records : list ptr) : M (list ptr) :=
  match lines with
  | [] => ret records
  | CsvError :: _ => fatal
  | CsvFields each :: rest =>
      match each with
      | [each0; each1] =>
          r <- alloc (mkRecord (strings_TrimSpace each1) false 0 None "" notNasty [] None) ;;
          match strconv_ParseInt each0 with
          | None => fatal
          | Some i =>
              r' <- load r ;;
              store r (mkRecord (FXID r') (Handled r') (Size r') (Some i) (File r')
                         (Status r') (Versions r') (ValidVersion r')) ;;
              getRecords_loop rest (records ++ [r])
          end
      | _ => fatal
      end
  end.

(** [func getRecords(file string) (records []*record)]; [None] is a file
    that [ioutil.ReadFile] cannot read. *)
Definition getRecords (file : option (list csvRead)) : M (list ptr) :=
  match file with
  | None => fatal
  | Some lines => getRecords_loop lines []
  end.

(** ** Relevance Filter *)

Fixpoint skipRecords_loop (records toret : list ptr) (sk : skipped)
  : M (list ptr * skipped) :=
  match records with
  | [] => ret (toret, sk)
  | r :: rest =>
      rv <- load r ;;
      res <- callGetFileInfoByFXID (FXID rv) ;;
      match res with
      | inl _ => skipRecords_loop rest toret sk
      | inr fi =>
          let filename := eosclient.File fi in
          if strings_Contains filename "/proc/recycle" then
            skipRecords_loop rest toret
              (mkSkipped (S (Recycle sk)) (SkVersions sk) (Atomic sk))
          else if strings_Contains filename "sys.v" then
            skipRecords_loop rest toret
              (mkSkipped (Recycle sk) (S (SkVersions sk)) (Atomic sk))
          else if strings_Contains filename "sys.a" then
            skipRecords_loop rest toret
              (mkSkipped (Recycle sk) (SkVersions sk) (S (Atomic sk)))
          else
            store r (set_File rv filename) ;;
            skipRecords_loop rest (toret ++ [r]) sk
      end
  end.

(** [func skipRecords(records []*record) (toret []*record, sk *skipped)] *)
Definition skipRecords (records : list ptr) : M (list ptr * skipped) :=
  skipRecords_loop records [] (mkSkipped 0 0 0).

(** ** Size Classifier *)

Fixpoint getRecordDistribution_loop (records chunked nasty : list ptr)
  : M (list ptr * list ptr) :=
  match records with
  | [] => ret (chunked, nasty)
  | r :: rest =>
      rv <- load r ;;
      if isChunked (Size rv) then
        store r (set_Handled rv true) ;;
        getRecordDistribution_loop rest (chunked ++ [r]) nasty
      else
        store r (set_Handled (set_Status rv nastyNotChunk) true) ;;
        getRecordDistribution_loop rest chunked (nasty ++ [r])
  end.

(** [func getRecordDistribution(records []*record) (chunked, nasty []*record)] *)
Definition getRecordDistribution (records : list ptr) : M (list ptr * list ptr) :=
  getRecordDistribution_loop records [] [].

(** ** Version Resolver *)

(** [r.Versions = versions] *)
Definition assignVersions (r : ptr) (versions : list FileInfo) : M unit :=
  rv <- load r ;;
  store r (set_Versions rv versions) ;;
  emit (EvSetVersions r).

Fixpoint analyze_loop (chunked newchunked nasty : list ptr)
  : M (list ptr * list ptr) :=
  match chunked with
  | [] => ret (newchunked, nasty)
  | r :: rest =>
      rv <- load r ;;
      res <- callListVersions (File rv) ;;
      match res with
      | inl _ => fatal
      | inr versions =>
          assignVersions r versions ;;
          rv <- load r ;;
          match Versions rv with
          | [] =>
              store r (set_Status rv nastyNoVersions) ;;
              analyze_loop rest newchunked (nasty ++ [r])
          | _ :: _ =>
              let '(valid, rv') := haveValidVersion rv in
              store r rv' ;;
              if valid then analyze_loop rest (newchunked ++ [r]) nasty
              else
                rv <- load r ;;
                store r (set_Status rv nastyInvalidVersion) ;;
                analyze_loop rest newchunked (nasty ++ [r])
          end
      end
  end.

(** [func analyze(chunked, nasty []*record) ([]*record, []*record)] *)
Definition analyze (chunked nasty : list ptr) : M (list ptr * list ptr) :=
  analyze_loop chunked [] nasty.

(** [func analyzeNasty(nasty []*record)] *)
Fixpoint analyzeNasty (nasty : list ptr) : M unit :=
  match nasty with
  | [] => ret tt
  | r :: rest =>
      rv <- load r ;;
      store r (set_Handled rv true) ;;
      rv <- load r ;;
      res <- callListVersions (File rv) ;;
      match res with
      | inl _ => fatal
      | inr versions =>
          assignVersions r versions ;;
          analyzeNasty rest
      end
  end.

(** ** Rollback Executor *)

(** [func rollback(chunked []*record)] under the [repair] flag.  The
    progress line is printed first and reads [r.ValidVersion.File]. *)
Fixpoint rollback (repair : bool) (chunked : list ptr) : M unit :=
  match chunked with
  | [] => ret tt
  | r :: rest =>
      rv <- load r ;;
      match ValidVersion rv with
      | None => panic
      | Some v =>
          (if repair then
             _ <- callRollbackToVersion (File rv) (path_Base (eosclient.File v)) ;;
             ret tt
           else ret tt) ;;
          rollback repair rest
      end
  end.

(** ** The whole run *)

(** The slices [main] holds once resolution is over. *)
Record stages : Set := mkStages {
  st_records : list ptr;      (* [records] *)
  st_newRecords : list ptr;   (* [newRecords] *)
  st_sk : skipped;            (* [sk] *)
  st_chunked0 : list ptr;     (* [chunked], as classified *)
  st_nasty0 : list ptr;       (* [nasty], as classified *)
  st_chunked : list ptr;      (* [chunked], as resolved *)
  st_nasty : list ptr         (* [nasty], as resolved *)
}.

(** [func main()] up to and including the call of [analyze]. *)
Definition resolve (file : option (list csvRead)) : M stages :=
  records <- getRecords file ;;
  fs <- skipRecords records ;;
  cn <- getRecordDistribution (fst fs) ;;
  cn' <- analyze (fst cn) (snd cn) ;;
  ret (mkStages records (fst fs) (snd fs) (fst cn) (snd cn) (fst cn') (snd cn')).

(** [func main()] under the [repair] flag; the counts and the dump of the
    nasty records only print. *)
Definition main (repair : bool) (file : option (list csvRead)) : M unit :=
  st <- resolve file ;;
  analyzeNasty (st_nasty st) ;;
  rollback repair (st_chunked st).

(** A fresh process: nothing allocated, nothing logged. *)
Definition start (b : B) : world := mkWorld [] b [].

End Run.

Arguments world : clear implicits.
Arguments outcome : clear implicits.
Arguments M : clear implicits.
Arguments Done {B A} a w.
Arguments Abort {B A} k w.

(** ** Go's [sort.Slice] on short slices

    [insertionSort_func], and the pass with gap 6 that [quickSort_func] of
    Go up to 1.18 runs before it on a range of at most 12 elements.  From
    Go 1.19 on, [pdqsort_func] runs [insertionSort_func] alone on such a
    range. *)

Section GoSort.
Context {A : Type} (less : A -> A -> bool).

(** [data.Swap(i, j)] *)
Definition swap (data : list A) (i j : nat) : list A :=
  match data !! i, data !! j with
  | Some x, Some y => <[i:=y]> (<[j:=x]> data)
  | _, _ => data
  end.

(** [for j := i; j > a && data.Less(j, j-1); j-- { data.Swap(j, j-1) }]:
    [x] is [data[j]], [before] is [data[a..j-1]] read from [j-1] down, and
    [after] is [data[j+1..i]]. *)
Fixpoint insertionSort_sink (before : list A) (x : A) (after : list A) : list A :=
  match before with
  | [] => x :: after
  | y :: before' =>
      if less x y then insertionSort_sink before' x (y :: after)
      else rev_append before (x :: after)
  end.

(** [for i := a + 1; i < b; i++]: [sorted] is [data[a..i-1]] and [rest] is
    [data[i..b-1]]. *)
Fixpoint insertionSort_from (sorted rest : list A) : list A :=
  match rest with
  | [] => sorted
  | x :: rest' => insertionSort_from (insertionSort_sink (rev sorted) x []) rest'
  end.

(** [insertionSort_func(data, 0, len(data))] *)
Definition insertionSort_func (data : list A) : list A :=
  match data with
  | [] => []
  | x :: rest => insertionSort_from [x] rest
  end.

(** [for i := a + 6; i < b; i++ { if data.Less(i, i-6) { data.Swap(i, i-6) } }],
    with [n] iterations left. *)
Fixpoint shellPass (n i : nat) (data : list A) : list A :=
  match n with
  | O => data
  | S n' =>
      match data !! i, data !! (i - 6)%nat with
      | Some x, Some y =>
          shellPass n' (S i) (if less x y then swap data i (i - 6) else data)
      | _, _ => data
      end
  end.

(** The tail of [quickSort_func] once [b - a <= 12]. *)
Definition quickSort_tail (data : list A) : list A :=
  if (1 <? length data)%nat then
    insertionSort_func (shellPass (length data - 6) 6 data)
  else data.

End GoSort.

(** ** The ordering the specification asks for

    Newest first, and versions with the same [MTimeSec] in the order the
    listing gave them: each version is put in front of the older ones among
    those that follow it. *)
Fixpoint stableInsert (v : FileInfo) (sorted : list FileInfo) : list FileInfo :=
  match sorted with
  | [] => [v]
  | w :: sorted' =>
      if eosclient.MTimeSec v <? eosclient.MTimeSec w
      then w :: stableInsert v sorted'
      else v :: w :: sorted'
  end.

Fixpoint stableSortDesc (versions : list FileInfo) : list FileInfo :=
  match versions with
  | [] => []
  | v :: rest => stableInsert v (stableSortDesc rest)
  end.

(** The first version, in scan order, whose size is not chunk-aligned. *)
Fixpoint firstNotChunked (versions : list FileInfo) : option FileInfo :=
  match versions with
  | [] => None
  | v :: rest => if isChunked (eosclient.Size v) then firstNotChunked rest else Some v
  end.

(** ** Go's [path.Base], [strconv.ParseInt] (base 10, 64 bits) and
    [strings.TrimSpace] (on the bytes of a UTF-8 string) *)

Fixpoint dropWhile {A} (f : A -> bool) (l : list A) : list A :=
  match l with
  | [] => []
  | x :: l' => if f x then dropWhile f l' else l
  end.

Fixpoint takeWhile {A} (f : A -> bool) (l : list A) : list A :=
  match l with
  | [] => []
  | x :: l' => if f x then x :: takeWhile f l' else []
  end.

Definition isSlash (c : ascii) : bool := Ascii.eqb c "/"%char.

Definition go_path_Base (path : string) : string :=
  match path with
  | EmptyString => "."
  | _ =>
      let stripped := dropWhile isSlash (rev (list_ascii_of_string path)) in
      match rev (takeWhile (fun c => negb (isSlash c)) stripped) with
      | [] => "/"
      | last => string_of_list_ascii last
      end
  end.

Fixpoint parseDigits (cs : list ascii) (acc : Z) : option Z :=
  match cs with
  | [] => Some acc
  | c :: cs' =>
      let d := Z.of_nat (nat_of_ascii c) - 48 in
      if (0 <=? d) && (d <=? 9) then parseDigits cs' (10 * acc + d) else None
  end.

Definition inInt64 (i : Z) : option Z :=
  if (- 2 ^ 63 <=? i) && (i <? 2 ^ 63) then Some i else None.

Definition go_ParseInt (s : string) : option Z :=
  match list_ascii_of_string s with
  | [] => None
  | c :: cs =>
      if Ascii.eqb c "-"%char then
        match cs with
        | [] => None
        | _ => i ← parseDigits cs 0; inInt64 (- i)
        end
      else if Ascii.eqb c "+"%char then
        match cs with
        | [] => None
        | _ => i ← parseDigits cs 0; inInt64 i
        end
      else i ← parseDigits (c :: cs) 0; inInt64 i
  end.

(** The UTF-8 encodings of the runes [unicode.IsSpace] accepts: tab, line
    feed, vertical tab, form feed, carriage return and space, then U+0085,
    U+00A0, U+1680, U+2000 to U+200A, U+2028, U+2029, U+202F, U+205F and
    U+3000. *)
Definition spaceRunes : list (list Z) :=
  [[9]; [10]; [11]; [12]; [13]; [32];
   [194; 133]; [194; 160]; [225; 154; 128];
   [226; 128; 128]; [226; 128; 129]; [226; 128; 130]; [226; 128; 131];
   [226; 128; 132]; [226; 128; 133]; [226; 128; 134]; [226; 128; 135];
   [226; 128; 136]; [226; 128; 137]; [226; 128; 138];
   [226; 128; 168]; [226; 128; 169]; [226; 128; 175];
   [226; 129; 159]; [227; 128; 128]].

(** The bytes [l] start with the bytes [enc]. *)
Fixpoint startsWith (enc : list Z) (l : list ascii) : bool :=
  match enc, l with
  | [], _ => true
  | e :: enc', c :: l' => (Z.of_nat (nat_of_ascii c) =? e) && startsWith enc' l'
  | _ :: _, [] => false
  end.

(** The width in bytes of the white-space rune, encoded as in [table], that
    [l] starts with; 0 when it starts with none. *)
Definition spaceWidth (table : list (list Z)) (l : list ascii) : nat :=
  match List.find (fun enc => startsWith enc l) table with
  | Some enc => length enc
  | None => 0%nat
  end.

(** [strings.TrimLeftFunc(s, unicode.IsSpace)]: the white-space runes at the
    front are dropped, [skip] bytes of the current one still to go. *)
Fixpoint trimLeft (table : list (list Z)) (skip : nat) (l : list ascii) : list ascii :=
  match l with
  | [] => []
  | _ :: l' =>
      match skip with
      | S k => trimLeft table k l'
      | O =>
          match spaceWidth table l with
          | O => l
          | S k => trimLeft table k l'
          end
      end
  end.

(** [strings.TrimSpace]: white space goes from the front, then from the
    back, where a rune is read from its last byte. *)
Definition go_TrimSpace (s : string) : string :=
  let l := trimLeft spaceRunes 0 (list_ascii_of_string s) in
  string_of_list_ascii (rev (trimLeft (map (@rev Z) spaceRunes) 0 (rev l))).

(** ** Properties of version lists, records, heaps and runs *)

(** Newest first: no version is older than one that follows it. *)
Definition newestFirst : list FileInfo -> Prop :=
  StronglySorted (fun a b => eosclient.MTimeSec b <= eosclient.MTimeSec a).

(** The versions with modification time [t], in the order of the list. *)
Definition sameMTime (t : Z) (l : list FileInfo) : list FileInfo :=
  filter (fun v => eosclient.MTimeSec v = t) l.

(** The size of a version is not chunk-aligned. *)
Definition notChunked (v : FileInfo) : Prop := isChunked (eosclient.Size v) = false.

#[global] Instance notChunked_dec v : Decision (notChunked v).
Proof. unfold notChunked. apply _. Defined.

(** Every version has a chunk-aligned size. *)
Definition allChunked (vs : list FileInfo) : Prop :=
  Forall (fun v => isChunked (eosclient.Size v) = true) vs.

(** [post m w Q E]: the run of [m] from [w] ends in a world that satisfies
    [Q] if it returns and [E] if it aborts. *)
Definition post {B A} (m : M B A) (w : world B) (Q : A -> world B -> Prop)
    (E : world B -> Prop) : Prop :=
  match m w with
  | Done a w' => Q a w'
  | Abort _ w' => E w'
  end.

(** The statuses the program ever writes once every size is 0. *)
Definition writtenStatus (s : status) : Prop :=
  s = notNasty \/ s = nastyNoVersions \/ s = nastyInvalidVersion.

(** Every record on the heap still has the size the loader gave it, and
    its status is one of [writtenStatus]. *)
Definition sizeUntouched (h : list record) : Prop :=
  Forall (fun r => Size r = 0 /\ writtenStatus (Status r)) h.

(** Every pointer of [ps] points into the heap. *)
Definition allocated {B} (w : world B) (ps : list ptr) : Prop :=
  Forall (fun p => (p < length (heap w))%nat) ps.

(** Every size is 0 and no record is classified as not chunked. *)
Definition sizeNeverSet (h : list record) : Prop :=
  Forall (fun r => Size r = 0 /\ Status r <> nastyNotChunk) h.

(** From [w] to [w'] the sizes stay untouched and no record disappears. *)
Definition keeps {B} (w w' : world B) : Prop :=
  sizeUntouched (heap w') /\ (length (heap w) <= length (heap w'))%nat.

(** The backend call [rollback] makes for the record behind [p]. *)
Definition rollbackCall {rt : GoRuntime} (h : list record) (p : ptr) (e : event) : Prop :=
  exists r v, h !! p = Some r /\ ValidVersion r = Some v /\
    e = EvRollback (File r) (path_Base (eosclient.File v)).

(** The store after the backend has served the calls of [calls], in order,
    starting from [b]: each logged call goes through the client once. *)
Definition storeAfter {B} {client : EosClient B} (b : B) (calls : list event) : B :=
  fold_left (fun b e =>
               match e with
               | EvGetFileInfo fxid => (GetFileInfoByFXID b fxid).1
               | EvListVersions path => (ListVersions b path).1
               | EvRollback path version => (RollbackToVersion b path version).1
               | EvSetVersions _ => b
               end) calls b.





(** ** Sample versions *)

(** A record as the classifier hands it to the resolver, with a listing
    attached. *)
Definition sampleRecord (versions : list FileInfo) : record :=
  mkRecord "018edb0f" true 0 (Some 1592324325)
    "/eos/user/a/alice/report.pdf" notNasty versions None.

Definition versionA : FileInfo :=
  eosclient.mkFileInfo "/eos/user/a/alice/.sys.v#.report.pdf/1592300000.a" 15000000 1592300000.
Definition versionB : FileInfo :=
  eosclient.mkFileInfo "/eos/user/a/alice/.sys.v#.report.pdf/1592300000.b" 15000001 1592300000.
Definition versionOld : FileInfo :=
  eosclient.mkFileInfo "/eos/user/a/alice/.sys.v#.report.pdf/1592000000.0" 12345678 1592000000.
Definition fragment (n : Z) : FileInfo :=
  eosclient.mkFileInfo "/eos/user/a/alice/.sys.v#.report.pdf/fragment"
    (n * 10000000) (1592200000 + n).


(** ** A fixed store *)

(** A store that answers from two tables and never changes: metadata by
    file identifier, versions by path (a path without an entry is not
    found), and one answer for every rollback. *)
Record fixture : Set := mkFixture {
  fx_metadata : list (string * FileInfo);
  fx_versions : list (string * list FileInfo);
  fx_rollback : option eosclient.error
}.

Fixpoint assoc {V} (k : string) (l : list (string * V)) : option V :=
  match l with
  | [] => None
  | (k', v) :: l' => if String.eqb k k' then Some v else assoc k l'
  end.

#[global] Instance fixtureClient : EosClient fixture := {|
  GetFileInfoByFXID b fxid :=
    (b, match assoc fxid (fx_metadata b) with
        | Some fi => inr fi
        | None => inl eosclient.ErrNotFound
        end);
  ListVersions b path :=
    (b, match assoc path (fx_versions b) with
        | Some vs => inr vs
        | None => inl eosclient.ErrNotFound
        end);
  RollbackToVersion b _ _ := (b, fx_rollback b)
|}.

(** A store that keeps the journal of the rollbacks asked of it, path and
    version, and answers each of them with an error. *)
Definition journalClient : EosClient (list (string * string)) := {|
  GetFileInfoByFXID b _ := (b, inl eosclient.ErrNotFound);
  ListVersions b _ := (b, inl eosclient.ErrNotFound);
  RollbackToVersion b path version := (b ++ [(path, version)], Some eosclient.ErrOther)
|}.

Definition samplePath : string := "/eos/user/a/alice/report.pdf".

(** The input line [1592324325 018edb0f]. *)
Definition sampleFile : option (list csvRead) :=
  Some [CsvFields ["1592324325"; "018edb0f"]].

(** The current object: 30,000,000 bytes. *)
Definition sampleMetadata : list (string * FileInfo) :=
  [("018edb0f", eosclient.mkFileInfo samplePath 30000000 1592324325)].

Definition version100 : FileInfo :=
  eosclient.mkFileInfo "/eos/user/a/alice/.sys.v#.report.pdf/100.018edb0f" 30000000 100.
Definition version90 : FileInfo :=
  eosclient.mkFileInfo "/eos/user/a/alice/.sys.v#.report.pdf/90.018edb0f" 15000000 90.

(** A store with a complete older version of the sample file. *)
Definition storeRepairable : fixture :=
  mkFixture sampleMetadata [(samplePath, [version100; version90])] None.

(** A store in which the sample file has no versions. *)
Definition storeNoVersions : fixture :=
  mkFixture sampleMetadata [(samplePath, [])] None.

(** A store in which the sample file has vanished before its versions are
    listed. *)
Definition storeVanished : fixture := mkFixture sampleMetadata [] None.

(** The record the loader makes of the sample line, and the same record
    after each later stage against [storeRepairable]. *)
Definition loadedRecord : record :=
  mkRecord "018edb0f" false 0 (Some 1592324325) "" notNasty [] None.
Definition filteredRecord : record := set_File loadedRecord samplePath.
Definition classifiedRecord : record := set_Handled filteredRecord true.
Definition repairedRecord : record :=
  set_ValidVersion (set_Versions classifiedRecord [version100; version90])
    (Some version90).

(** ** Reports *)

(** [func (s status) String() string] on the [uint32] behind the status;
    [None] is the [default] branch, which ends the run in
    [log.Fatal("invalid state")]. *)
Definition status_String (s : Z) : option string :=
  if s =? status_code notNasty then
    Some "the_file_looks_good_and_could_be_repaired_because_we_might_a_valid_version"
  else if s =? status_code repairable then
    Some "the_file_can_be_automatically_repaired_because_we_have_found_a_valid_version"
  else if s =? status_code nastyNotChunk then
    Some "the_current-file_is_not_an_aborted_upload,_thus_we_do_not_know_if_it_is_a_good_file_or_not"
  else if s =? status_code nastyNoVersions then
    Some "there_are_no_versions_availabe_for_this_file"
  else if s =? status_code nastyInvalidVersion then
    Some "the_available_versions_are_invalid_because_they_are_chunked_uploads"
  else if s =? status_code nastyNotExistsAnymore then
    Some "the_current_file_does_not_exists_anymore"
  else None.

(** The [status] local of [func (r *record) String() string]. *)
Definition record_String_status (r : record) : string :=
  if status_code (Status r) =? 0 then "HEISENBERG"
  else if status_code (Status r) =? 1 then "GOOD"
  else "BAD".

(** [c++] on a [uint32]. *)
Definition uint32_incr (c : Z) : Z := (c + 1) mod 2 ^ 32.

(** The counter of [func count(msg string, records []*record)] after its
    loop; a pointer that holds no record is nil. *)
Fixpoint count_loop (h : list record) (records : list ptr) (c : Z) : Z :=
  match records with
  | [] => c
  | r :: rest =>
      match h !! r with
      | Some _ => count_loop h rest (uint32_incr c)
      | None => count_loop h rest c
      end
  end.

Definition count (h : list record) (records : list ptr) : Z :=
  count_loop h records 0.

(** The counter of [func countNasty(nasty []*record, s status)] after its
    loop. *)
Fixpoint countNasty_loop (h : list record) (nasty : list ptr) (s : status) (c : Z) : Z :=
  match nasty with
  | [] => c
  | r :: rest =>
      match h !! r with
      | Some rv =>
          if decide (Status rv = s) then countNasty_loop h rest s (uint32_incr c)
          else countNasty_loop h rest s c
      | None => countNasty_loop h rest s c
      end
  end.

Definition countNasty (h : list record) (nasty : list ptr) (s : status) : Z :=
  countNasty_loop h nasty s 0.

(** ** Further properties of records and runs *)

(** [ends m w Q E]: the run of [m] from [w] ends in a world that satisfies
    [Q] if it returns and [E], which also sees how the run was cut short, if
    it aborts. *)
Definition ends {B A} (m : M B A) (w : world B) (Q : A -> world B -> Prop)
    (E : abort -> world B -> Prop) : Prop :=
  match m w with
  | Done a w' => Q a w'
  | Abort k w' => E k w'
  end.

(** The record the loader makes of one line, if the line is well formed. *)
Definition lineRecord {rt : GoRuntime} (line : csvRead) : option record :=
  match line with
  | CsvFields [each0; each1] =>
      match strconv_ParseInt each0 with
      | Some i => Some (mkRecord (strings_TrimSpace each1) false 0 (Some i) ""
                          notNasty [] None)
      | None => None
      end
  | _ => None
  end.

(** A path outside the trash, the version folders and the atomic-write
    files. *)
Definition nominalPath (filename : string) : Prop :=
  strings_Contains filename "/proc/recycle" = false /\
  strings_Contains filename "sys.v" = false /\
  strings_Contains filename "sys.a" = false.

(** The metadata call [skipRecords] makes for the record behind [p]. *)
Definition metadataCall (h : list record) (p : ptr) (e : event) : Prop :=
  exists r, h !! p = Some r /\ e = EvGetFileInfo (FXID r).

(** The record behind [p] is on the heap and has a valid version. *)
Definition hasValidVersion (h : list record) (p : ptr) : Prop :=
  exists r v, h !! p = Some r /\ ValidVersion r = Some v.

(** Two records that differ at most in [Handled] and [Versions]. *)
Definition sameButListing (r r' : record) : Prop :=
  FXID r' = FXID r /\ Size r' = Size r /\ Date r' = Date r /\
  File r' = File r /\ Status r' = Status r /\ ValidVersion r' = ValidVersion r.

(** Every record of [h] is still on the heap [h'], changed at most as [R]
    allows, and [h'] holds no other record. *)
Definition framed (R : relation record) (h h' : list record) : Prop :=
  length h' = length h /\
  forall p r, h !! p = Some r -> exists r', h' !! p = Some r' /\ R r r'.

(** Two records that differ at most in [File]. *)
Definition sameButFile (r r' : record) : Prop :=
  FXID r' = FXID r /\ Handled r' = Handled r /\ Size r' = Size r /\
  Date r' = Date r /\ Status r' = Status r /\ Versions r' = Versions r /\
  ValidVersion r' = ValidVersion r.

(** Two records that differ at most in [Handled] and [Status]. *)
Definition sameButClass (r r' : record) : Prop :=
  FXID r' = FXID r /\ Size r' = Size r /\ Date r' = Date r /\
  File r' = File r /\ Versions r' = Versions r /\
  ValidVersion r' = ValidVersion r.

(** What [analyze] leaves of a record: everything but [Status], [Versions]
    and [ValidVersion], and a valid version stays a valid version. *)
Definition sameButResolution (r r' : record) : Prop :=
  FXID r' = FXID r /\ Handled r' = Handled r /\ Size r' = Size r /\
  Date r' = Date r /\ File r' = File r /\
  (is_Some (ValidVersion r) -> is_Some (ValidVersion r')).

(** The record behind [p] is on the heap and its path is nominal. *)
Definition nominalAt (h : list record) (p : ptr) : Prop :=
  exists r, h !! p = Some r /\ nominalPath (File r).

(** The sum of the three skip counters. *)
Definition skippedTotal (sk : skipped) : nat :=
  (Recycle sk + SkVersions sk + Atomic sk)%nat.

(** The record behind [p] has been examined and its size is chunk-aligned. *)
Definition chunkedAt (h : list record) (p : ptr) : Prop :=
  exists r, h !! p = Some r /\ Handled r = true /\ isChunked (Size r) = true.

(** The record behind [p] has been examined, its size is not chunk-aligned
    and its status says so. *)
Definition notChunkAt (h : list record) (p : ptr) : Prop :=
  exists r, h !! p = Some r /\ Handled r = true /\
    isChunked (Size r) = false /\ Status r = nastyNotChunk.

(** [a] is a version of [l] that is not chunk-aligned, and no version of
    [l] that is not chunk-aligned is newer. *)
Definition newestNotChunked (l : list FileInfo) (a : FileInfo) : Prop :=
  a ∈ l /\ notChunked a /\
  forall c, c ∈ l -> notChunked c -> eosclient.MTimeSec c <= eosclient.MTimeSec a.

(** A complete version newer than [versionA] and [versionB]. *)
Definition versionTop : FileInfo :=
  eosclient.mkFileInfo "/eos/user/a/alice/.sys.v#.report.pdf/1592310000.c" 12000001 1592310000.

(** ** The resolver against the answers of the backend *)

(** The paths of the records behind [ps], in order; [None] when one of the
    pointers holds no record. *)
Fixpoint pathsAt (h : list record) (ps : list ptr) : option (list string) :=
  match ps with
  | [] => Some []
  | p :: rest =>
      match h !! p with
      | Some r => cons (File r) <$> pathsAt h rest
      | None => None
      end
  end.

(** What the backend answers when the versions of each path of [paths] are
    listed in order, starting from the store [b]; [None] as soon as one
    listing fails. *)
Fixpoint listings {B} {client : EosClient B} (b : B) (paths : list string)
  : option (list (list FileInfo)) :=
  match paths with
  | [] => Some []
  | path :: rest =>
      match ListVersions b path with
      | (b', inr versions) => cons versions <$> listings b' rest
      | (_, inl _) => None
      end
  end.

(** [p] stands at position [i] of [ps] and nowhere after it. *)
Definition lastAt (ps : list ptr) (i : nat) (p : ptr) : Prop :=
  ps !! i = Some p /\ forall j, (i < j)%nat -> ps !! j <> Some p.

(** The two events each resolution adds to the log: the listing of the
    path, then the store of the answer. *)
Definition listingEvents (paths : list string) (ps : list ptr) : list event :=
  concat (zip_with (fun f p => [EvListVersions f; EvSetVersions p]) paths ps).

(** Three files of the same user: one without versions, one whose versions
    are all aborted uploads, and the sample file. *)
Definition emptyPath : string := "/eos/user/a/alice/empty.bin".
Definition uploadPath : string := "/eos/user/a/alice/upload.bin".

Definition uploadVersions : list FileInfo :=
  [eosclient.mkFileInfo "/eos/user/a/alice/.sys.v#.upload.bin/1592200001.1" 10000000 1592200001;
   eosclient.mkFileInfo "/eos/user/a/alice/.sys.v#.upload.bin/1592200002.2" 20000000 1592200002].

Definition storeThreeFiles : fixture :=
  mkFixture []
    [(emptyPath, []); (uploadPath, uploadVersions);
     (samplePath, [version90; version100])]
    None.

Definition threeRecords : list record :=
  [set_File classifiedRecord emptyPath; set_File classifiedRecord uploadPath;
   classifiedRecord].

(** * Facts about the sorting passes *)

Section GoSortFacts.
Context {A : Type} (less : A -> A -> bool).

Lemma elem_of_rev (x : A) l : x ∈ rev l <-> x ∈ l.
Proof. rewrite !list_elem_of_In. symmetry. apply in_rev. Qed.

Lemma insertionSort_sink_perm (before : list A) x after :
  insertionSort_sink less before x after ≡ₚ rev before ++ x :: after.
Proof.
  revert after. induction before as [|y before IH]; intros after; simpl.
  - reflexivity.
  - destruct (less x y).
    + rewrite IH, <- app_assoc. simpl.
      apply Permutation_app_head. apply perm_swap.
    + rewrite rev_append_rev. simpl. by rewrite <- app_assoc.
Qed.

Lemma insertionSort_from_perm (sorted rest : list A) :
  insertionSort_from less sorted rest ≡ₚ sorted ++ rest.
Proof.
  revert sorted. induction rest as [|x rest IH]; intros sorted; simpl.
  - by rewrite app_nil_r.
  - rewrite IH, insertionSort_sink_perm, rev_involutive, <- app_assoc.
    reflexivity.
Qed.

Lemma insertionSort_func_perm (data : list A) :
  insertionSort_func less data ≡ₚ data.
Proof.
  destruct data as [|x rest]; simpl; [done|].
  by rewrite insertionSort_from_perm.
Qed.

Lemma delete_insert_same (l : list A) i x : delete i (<[i:=x]> l) = delete i l.
Proof.
  revert i. induction l as [|y l IH]; intros [|i]; simpl; try done.
  f_equal. apply IH.
Qed.

Lemma swap_perm (data : list A) i j : swap data i j ≡ₚ data.
Proof.
  unfold swap.
  destruct (data !! i) as [x|] eqn:Hi; [|done].
  destruct (data !! j) as [y|] eqn:Hj; [|done].
  destruct (decide (i = j)) as [->|Hne].
  { assert (x = y) as -> by congruence.
    rewrite list_insert_insert_eq. by rewrite list_insert_id. }
  assert (Hi' : <[j:=x]> data !! i = Some x)
    by (by rewrite list_lookup_insert_ne).
  assert (Hj' : <[j:=x]> data !! j = Some x).
  { apply list_lookup_insert_eq. by eapply lookup_lt_Some. }
  assert (Hii : <[i:=y]> (<[j:=x]> data) !! i = Some y).
  { apply list_lookup_insert_eq. rewrite length_insert. by eapply lookup_lt_Some. }
  etrans; [apply (delete_Permutation _ _ _ Hii)|].
  etrans; [|symmetry; apply (delete_Permutation _ _ _ Hj)].
  rewrite delete_insert_same. apply Permutation_skip.
  apply (Permutation_cons_inv (a:=x)).
  etrans; [symmetry; apply (delete_Permutation _ _ _ Hi')|].
  etrans; [apply (delete_Permutation _ _ _ Hj')|].
  by rewrite delete_insert_same.
Qed.

Lemma shellPass_perm n i (data : list A) : shellPass less n i data ≡ₚ data.
Proof.
  revert i data. induction n as [|n IH]; intros i data; simpl; [done|].
  destruct (data !! i) as [x|]; [|done].
  destruct (data !! (i - 6)%nat) as [y|]; [|done].
  rewrite IH. destruct (less x y); [apply swap_perm|done].
Qed.

Lemma quickSort_tail_perm (data : list A) : quickSort_tail less data ≡ₚ data.
Proof.
  unfold quickSort_tail. destruct (1 <? length data)%nat; [|done].
  by rewrite insertionSort_func_perm, shellPass_perm.
Qed.

Hypothesis less_swo : strict_weak less.

Lemma insertionSort_sink_sorted (before : list A) x after :
  sorted_by less (rev before) ->
  sorted_by less after ->
  Forall (fun y => less x y = true) after ->
  (forall b y, b ∈ before -> y ∈ after -> less y b = false) ->
  sorted_by less (insertionSort_sink less before x after).
Proof.
  destruct less_swo as [Hasym Htrans]. unfold sorted_by.
  revert after. induction before as [|y before IH];
    intros after Hb Ha Hx Hcross; simpl.
  - apply StronglySorted_cons. split; [|done].
    eapply Forall_impl; [exact Hx|]. intros z Hz. by apply Hasym.
  - simpl in Hb. apply StronglySorted_app in Hb as (Hby & Hb & _).
    destruct (less x y) eqn:Hxy.
    + apply IH; [done| | |].
      * apply StronglySorted_cons. split; [|done].
        apply Forall_forall. intros z Hz. apply Hcross; [left|done].
      * by constructor.
      * intros b z Hbm Hz. apply elem_of_cons in Hz as [->|Hz].
        -- apply Hby; [by rewrite elem_of_rev|by left].
        -- apply Hcross; [by right|done].
    + rewrite rev_append_rev.
      apply StronglySorted_app_2; [|done|].
      * intros b z Hbm Hz.
        assert (Hyb : less y b = false) by (apply Hby; [done|by left]).
        rewrite elem_of_rev in Hbm.
        apply elem_of_cons in Hz as [->|Hz]; [done|].
        apply elem_of_cons in Hz as [->|Hz]; [by eapply Htrans|].
        apply Hcross; [by right|done].
      * apply StronglySorted_cons. split.
        -- constructor; [done|]. apply Forall_forall. intros z Hz.
           apply Hcross; [by left|done].
        -- apply StronglySorted_cons. split; [|done].
           eapply Forall_impl; [exact Hx|]. intros z Hz. by apply Hasym.
Qed.

Lemma insertionSort_from_sorted (sorted rest : list A) :
  sorted_by less sorted -> sorted_by less (insertionSort_from less sorted rest).
Proof.
  revert sorted. induction rest as [|x rest IH]; intros sorted Hs; simpl; [done|].
  apply IH. apply insertionSort_sink_sorted.
  - by rewrite rev_involutive.
  - constructor.
  - constructor.
  - intros b y _ Hy. inversion Hy.
Qed.

Lemma insertionSort_func_sorted (data : list A) :
  sorted_by less (insertionSort_func less data).
Proof.
  destruct data as [|x rest]; simpl; [constructor|].
  apply insertionSort_from_sorted. repeat constructor.
Qed.

Lemma quickSort_tail_sorted (data : list A) :
  sorted_by less (quickSort_tail less data).
Proof.
  unfold quickSort_tail. destruct (1 <? length data)%nat eqn:Hlen.
  - apply insertionSort_func_sorted.
  - destruct data as [|x [|y data]]; [constructor|repeat constructor|].
    simpl in Hlen. done.
Qed.

End GoSortFacts.

(** The comparison of [sortVersions] is a strict weak ordering. *)
Lemma lessMTime_strict_weak : strict_weak lessMTime.
Proof. unfold strict_weak, lessMTime. split; intros; lia. Qed.

(** Two runtimes that meet the contract of [sort.Slice]: Go up to 1.18 and
    Go from 1.19 on, each as it sorts a slice of at most 12 elements. *)
Definition go118 : GoRuntime := {|
  sort_Slice := fun less => quickSort_tail less;
  sort_Slice_perm := fun less => quickSort_tail_perm less;
  sort_Slice_sorted := fun less l swo => quickSort_tail_sorted less swo l;
  path_Base := go_path_Base;
  strconv_ParseInt := go_ParseInt;
  strings_TrimSpace := go_TrimSpace
|}.

Definition go119 : GoRuntime := {|
  sort_Slice := fun less => insertionSort_func less;
  sort_Slice_perm := fun less => insertionSort_func_perm less;
  sort_Slice_sorted := fun less l swo => insertionSort_func_sorted less swo l;
  path_Base := go_path_Base;
  strconv_ParseInt := go_ParseInt;
  strings_TrimSpace := go_TrimSpace
|}.

(** * Facts about the ordering of the specification *)

Lemma stableInsert_perm v l : stableInsert v l ≡ₚ v :: l.
Proof.
  induction l as [|w l IH]; simpl; [done|].
  destruct (_ <? _); [|done]. rewrite IH. apply perm_swap.
Qed.

Lemma stableSortDesc_perm l : stableSortDesc l ≡ₚ l.
Proof.
  induction l as [|v l IH]; simpl; [done|].
  by rewrite stableInsert_perm, IH.
Qed.

Lemma stableInsert_newestFirst v l :
  newestFirst l -> newestFirst (stableInsert v l).
Proof.
  unfold newestFirst. induction l as [|w l IH]; intros Hl; simpl.
  - repeat constructor.
  - apply StronglySorted_cons in Hl as [Hw Hl].
    destruct (eosclient.MTimeSec v <? eosclient.MTimeSec w) eqn:Hvw.
    + apply StronglySorted_cons. split; [|by apply IH].
      rewrite stableInsert_perm. constructor; [lia|done].
    + apply StronglySorted_cons. split.
      * constructor; [lia|]. eapply Forall_impl; [exact Hw|].
        simpl. intros; lia.
      * by apply StronglySorted_cons.
Qed.

Lemma stableSortDesc_newestFirst l : newestFirst (stableSortDesc l).
Proof.
  induction l as [|v l IH]; simpl; [constructor|].
  by apply stableInsert_newestFirst.
Qed.

Lemma stableInsert_stable t v l :
  newestFirst l ->
  sameMTime t (stableInsert v l) = sameMTime t (v :: l).
Proof.
  unfold newestFirst, sameMTime. induction l as [|w l IH]; intros Hl; simpl; [done|].
  apply StronglySorted_cons in Hl as [Hw Hl].
  destruct (eosclient.MTimeSec v <? eosclient.MTimeSec w) eqn:Hvw; [|done].
  rewrite filter_cons, (IH Hl), !filter_cons.
  repeat case_decide; try done; lia.
Qed.

Lemma stableSortDesc_stable t l :
  sameMTime t (stableSortDesc l) = sameMTime t l.
Proof.
  induction l as [|v l IH]; simpl; [done|].
  rewrite stableInsert_stable by apply stableSortDesc_newestFirst.
  unfold sameMTime in *. by rewrite !filter_cons, IH.
Qed.

(** * The size classifier *)

(** C2: for every size [s], [isChunked s] holds exactly when
    [s mod 10,000,000 = 0]; in particular [isChunked 0] is true. *)
Theorem isChunked_iff_multiple (s : Z) :
  (isChunked s = true <-> s mod 10000000 = 0) /\ isChunked 0 = true.
Proof.
  split; [|reflexivity].
  unfold isChunked. change (10 * 1000000) with 10000000.
  destruct (s mod 10000000 =? 0) eqn:E.
  - apply Z.eqb_eq in E. tauto.
  - apply Z.eqb_neq in E. split; [discriminate|tauto].
Qed.

(** * The resolver on one record *)

Lemma firstNotChunked_filter l : firstNotChunked l = head (filter notChunked l).
Proof.
  induction l as [|v l IH]; simpl; [done|].
  rewrite filter_cons.
  case_decide as Hv; unfold notChunked in Hv.
  - by rewrite Hv.
  - destruct (isChunked (eosclient.Size v)); [apply IH|done].
Qed.

Lemma firstNotChunked_Some l v :
  firstNotChunked l = Some v ->
  exists l1 l2, l = l1 ++ v :: l2 /\
    Forall (fun w => isChunked (eosclient.Size w) = true) l1 /\ notChunked v.
Proof.
  induction l as [|w l IH]; simpl; [discriminate|].
  destruct (isChunked (eosclient.Size w)) eqn:Hw.
  - intros (l1 & l2 & -> & Hl1 & Hv)%IH.
    exists (w :: l1), l2. split; [done|]. split; [by constructor|done].
  - intros [= ->]. exists [], l. by repeat split.
Qed.

Lemma firstNotChunked_None l :
  firstNotChunked l = None <->
  Forall (fun w => isChunked (eosclient.Size w) = true) l.
Proof.
  induction l as [|w l IH]; simpl; [by split|].
  destruct (isChunked (eosclient.Size w)) eqn:Hw.
  - rewrite IH. split; [by constructor|by inversion 1].
  - split; [discriminate|]. inversion 1; congruence.
Qed.

Section ResolverFacts.
Context {rt : GoRuntime}.

Lemma sortVersions_perm l : sortVersions l ≡ₚ l.
Proof. apply sort_Slice_perm. Qed.

Lemma sortVersions_newestFirst l : newestFirst (sortVersions l).
Proof.
  pose proof (sort_Slice_sorted lessMTime l lessMTime_strict_weak) as Hs.
  unfold newestFirst, sortVersions, sorted_by in *.
  eapply Sorted.StronglySorted_ind with (P := fun l => StronglySorted _ l);
    [constructor| |exact Hs].
  intros a l' _ IH Ha. constructor; [done|].
  eapply Forall_impl; [exact Ha|]. unfold lessMTime. simpl. intros; lia.
Qed.

Lemma haveValidVersion_scan_eq r vs :
  haveValidVersion_scan r vs =
  match firstNotChunked vs with
  | Some v => (true, set_ValidVersion (set_Status r notNasty) (Some v))
  | None => (false, r)
  end.
Proof.
  induction vs as [|v vs IH]; simpl; [done|].
  by destruct (isChunked (eosclient.Size v)).
Qed.

Lemma haveValidVersion_eq r :
  haveValidVersion r =
  let r1 := set_Versions r (sortVersions (Versions r)) in
  match firstNotChunked (sortVersions (Versions r)) with
  | Some v => (true, set_ValidVersion (set_Status r1 notNasty) (Some v))
  | None => (false, r1)
  end.
Proof. unfold haveValidVersion. by rewrite haveValidVersion_scan_eq. Qed.

End ResolverFacts.

(** * C3: ordering and scan *)




(** * C9: the selection and the order of the listing *)

Lemma newestNotChunked_perm l l' a :
  l ≡ₚ l' -> newestNotChunked l a -> newestNotChunked l' a.
Proof.
  intros Hperm (Ha & Hnc & Hmax). split; [by rewrite <- Hperm|].
  split; [done|]. intros c Hc. apply Hmax. by rewrite Hperm.
Qed.

Lemma firstNotChunked_newest l v :
  newestFirst l -> firstNotChunked l = Some v -> newestNotChunked l v.
Proof.
  intros Hs Hf.
  destruct (firstNotChunked_Some _ _ Hf) as (l1 & l2 & -> & Hl1 & Hv).
  split; [apply elem_of_app; right; by left|]. split; [done|].
  unfold newestFirst in Hs.
  apply StronglySorted_app in Hs as (_ & _ & Hs).
  apply StronglySorted_cons in Hs as [Hs _].
  intros c Hc Hcn. apply elem_of_app in Hc as [Hc|Hc].
  - rewrite Forall_forall in Hl1. specialize (Hl1 _ Hc).
    unfold notChunked in Hcn. congruence.
  - apply elem_of_cons in Hc as [->|Hc]; [lia|].
    rewrite Forall_forall in Hs. by apply Hs.
Qed.

(** C9 (as amended): when the newest version that is not chunk-aligned is
    unique, that is, when any two versions that are not chunk-aligned and
    are not older than any other such version are the same version, every
    order in which the same versions are listed leads to the same answer
    and the same [ValidVersion]. *)
Theorem haveValidVersion_order_independent
    {rt : GoRuntime} (r : record) (l1 l2 : list FileInfo) :
  l1 ≡ₚ l2 ->
  (forall a b, newestNotChunked l1 a -> newestNotChunked l1 b -> a = b) ->
  (haveValidVersion (set_Versions r l1)).1 = (haveValidVersion (set_Versions r l2)).1 /\
  ValidVersion (haveValidVersion (set_Versions r l1)).2 =
  ValidVersion (haveValidVersion (set_Versions r l2)).2.
Proof.
  intros Hperm Hunique.
  assert (Hf : firstNotChunked (sortVersions l1) = firstNotChunked (sortVersions l2)).
  { destruct (firstNotChunked (sortVersions l1)) as [v1|] eqn:Hf1;
      destruct (firstNotChunked (sortVersions l2)) as [v2|] eqn:Hf2; [|exfalso..|done].
    - f_equal. apply Hunique.
      + apply (newestNotChunked_perm (sortVersions l1)); [apply sortVersions_perm|].
        by apply firstNotChunked_newest; [apply sortVersions_newestFirst|].
      + apply (newestNotChunked_perm (sortVersions l2));
          [by rewrite sortVersions_perm|].
        by apply firstNotChunked_newest; [apply sortVersions_newestFirst|].
    - apply firstNotChunked_newest in Hf1 as (Hin & Hnc & _);
        [|apply sortVersions_newestFirst].
      apply firstNotChunked_None in Hf2. rewrite Forall_forall in Hf2.
      rewrite sortVersions_perm, Hperm, <- (sortVersions_perm l2) in Hin.
      specialize (Hf2 _ Hin). unfold notChunked in Hnc. congruence.
    - apply firstNotChunked_newest in Hf2 as (Hin & Hnc & _);
        [|apply sortVersions_newestFirst].
      apply firstNotChunked_None in Hf1. rewrite Forall_forall in Hf1.
      rewrite sortVersions_perm, <- Hperm, <- (sortVersions_perm l1) in Hin.
      specialize (Hf1 _ Hin). unfold notChunked in Hnc. congruence. }
  rewrite !haveValidVersion_eq. simpl. rewrite Hf.
  by destruct (firstNotChunked (sortVersions l2)).
Qed.

Lemma haveValidVersion_order_independent_witness :
  (haveValidVersion (rt:=go118)
     (set_Versions (sampleRecord []) [versionTop; versionA; versionB])).1 =
  (haveValidVersion (rt:=go118)
     (set_Versions (sampleRecord []) [versionB; versionTop; versionA])).1 /\
  ValidVersion (haveValidVersion (rt:=go118)
     (set_Versions (sampleRecord []) [versionTop; versionA; versionB])).2 =
  ValidVersion (haveValidVersion (rt:=go118)
     (set_Versions (sampleRecord []) [versionB; versionTop; versionA])).2.
Proof.
  apply (haveValidVersion_order_independent (rt:=go118)).
  - change ([versionTop; versionA; versionB] ≡ₚ [versionB] ++ [versionTop; versionA]).
    apply (Permutation_app_comm [versionTop; versionA] [versionB]).
  - assert (Htop : forall a, newestNotChunked [versionTop; versionA; versionB] a ->
                     a = versionTop).
    { intros a (Ha & _ & Hmax).
      assert (Hle : eosclient.MTimeSec versionTop <= eosclient.MTimeSec a)
        by (apply Hmax; [by left|reflexivity]).
      apply list_elem_of_In in Ha. simpl in Ha.
      destruct Ha as [<-|[<-|[<-|[]]]]; [reflexivity|exfalso..];
        apply Hle; reflexivity. }
    intros a b Ha Hb. by rewrite (Htop a Ha), (Htop b Hb).
Defined.

(** C9 as stated fails.  [versionA] and [versionB] have the same
    modification time and neither is chunk-aligned: listed as
    [versionA; versionB] the resolver takes [versionA], listed the other
    way round it takes [versionB], under either generation of
    [sort.Slice]. *)
Lemma haveValidVersion_depends_on_listing_order :
  [versionA; versionB] ≡ₚ [versionB; versionA] /\
  versionA <> versionB /\
  ValidVersion (haveValidVersion (rt:=go118) (sampleRecord [versionA; versionB])).2
    = Some versionA /\
  ValidVersion (haveValidVersion (rt:=go118) (sampleRecord [versionB; versionA])).2
    = Some versionB /\
  ValidVersion (haveValidVersion (rt:=go119) (sampleRecord [versionA; versionB])).2
    = Some versionA /\
  ValidVersion (haveValidVersion (rt:=go119) (sampleRecord [versionB; versionA])).2
    = Some versionB.
Proof.
  split; [apply perm_swap|]. split; [discriminate|].
  vm_compute. repeat split.
Qed.

(** * Reasoning about runs *)

Section RunFacts.
Context {B : Type} {client : EosClient B} {rt : GoRuntime}.

Lemma post_ret {A} (a : A) w (Q : A -> world B -> Prop) E : Q a w -> post (ret a) w Q E.
Proof. done. Qed.

Lemma post_bind {A C} (m : M B A) (f : A -> M B C) w Q E :
  post m w (fun a w' => post (f a) w' Q E) E -> post (bind m f) w Q E.
Proof. unfold post, bind. by destruct (m w). Qed.

Lemma post_mono {A} (m : M B A) w (Q Q' : A -> world B -> Prop) (E E' : world B -> Prop) :
  post m w Q E ->
  (forall a w', Q a w' -> Q' a w') -> (forall w', E w' -> E' w') ->
  post m w Q' E'.
Proof. unfold post. destruct (m w); auto. Qed.

Lemma post_fatal {A} w (Q : A -> world B -> Prop) (E : world B -> Prop) :
  E w -> post fatal w Q E.
Proof. done. Qed.

Lemma post_panic {A} w (Q : A -> world B -> Prop) (E : world B -> Prop) :
  E w -> post panic w Q E.
Proof. done. Qed.

Lemma post_load p w (Q : record -> world B -> Prop) (E : world B -> Prop) :
  (forall r, heap w !! p = Some r -> Q r w) -> E w -> post (load p) w Q E.
Proof. unfold post, load. destruct (heap w !! p); auto. Qed.

Lemma post_store p r w (Q : unit -> world B -> Prop) E :
  Q tt (mkWorld (<[p:=r]> (heap w)) (eos w) (events w)) -> post (store p r) w Q E.
Proof. done. Qed.

Lemma post_emit e w (Q : unit -> world B -> Prop) E :
  Q tt (mkWorld (heap w) (eos w) (events w ++ [e])) -> post (emit e) w Q E.
Proof. done. Qed.

Lemma post_alloc r w (Q : ptr -> world B -> Prop) E :
  Q (length (heap w)) (mkWorld (heap w ++ [r]) (eos w) (events w)) ->
  post (alloc r) w Q E.
Proof. done. Qed.

Lemma post_GetFileInfoByFXID fxid w (Q : _ -> world B -> Prop) E :
  (forall b res, Q res (mkWorld (heap w) b (events w ++ [EvGetFileInfo fxid]))) ->
  post (callGetFileInfoByFXID fxid) w Q E.
Proof.
  intros HQ. unfold post, callGetFileInfoByFXID.
  destruct (GetFileInfoByFXID (eos w) fxid). apply HQ.
Qed.

Lemma post_ListVersions path w (Q : _ -> world B -> Prop) E :
  (forall b res, Q res (mkWorld (heap w) b (events w ++ [EvListVersions path]))) ->
  post (callListVersions path) w Q E.
Proof.
  intros HQ. unfold post, callListVersions.
  destruct (ListVersions (eos w) path). apply HQ.
Qed.

Lemma post_RollbackToVersion path version w (Q : _ -> world B -> Prop) E :
  (forall b res, Q res (mkWorld (heap w) b (events w ++ [EvRollback path version]))) ->
  post (callRollbackToVersion path version) w Q E.
Proof.
  intros HQ. unfold post, callRollbackToVersion.
  destruct (RollbackToVersion (eos w) path version). apply HQ.
Qed.

Lemma post_assignVersions p vs w (Q : unit -> world B -> Prop) (E : world B -> Prop) :
  (forall r, heap w !! p = Some r ->
     Q tt (mkWorld (<[p:=set_Versions r vs]> (heap w)) (eos w)
             (events w ++ [EvSetVersions p]))) ->
  E w -> post (assignVersions p vs) w Q E.
Proof.
  intros HQ HE. unfold assignVersions.
  apply post_bind, post_load; [|done]. intros r Hr.
  apply post_bind, post_store, post_emit. simpl. by apply HQ.
Qed.

End RunFacts.

(** * C10: the size of a record *)

Ltac status_ok := unfold writtenStatus in *; simpl in *; intuition congruence.

Ltac heap_length :=
  simpl in *; rewrite ?length_insert, ?length_app in *; simpl in *; lia.

Section SizeFacts.
Context {B : Type} {client : EosClient B} {rt : GoRuntime}.

Lemma keeps_refl (w : world B) : sizeUntouched (heap w) -> keeps w w.
Proof. by split. Qed.

Lemma keeps_step (w w1 w' : world B) :
  (length (heap w) <= length (heap w1))%nat -> keeps w1 w' -> keeps w w'.
Proof. intros Hle [? ?]. split; [done|lia]. Qed.

Lemma haveValidVersion_size r :
  Size (haveValidVersion r).2 = Size r /\
  (Status (haveValidVersion r).2 = Status r \/
   Status (haveValidVersion r).2 = notNasty).
Proof.
  rewrite haveValidVersion_eq. simpl.
  destruct (firstNotChunked _); simpl; auto.
Qed.

Lemma sizeUntouched_insert h p r :
  sizeUntouched h -> Size r = 0 -> writtenStatus (Status r) ->
  sizeUntouched (<[p:=r]> h).
Proof. intros Hh Hs Hst. by apply Forall_insert. Qed.

Lemma sizeUntouched_never_set h : sizeUntouched h -> sizeNeverSet h.
Proof.
  intros Hh. eapply Forall_impl; [exact Hh|]. intros r [? ?].
  split; [done|]. status_ok.
Qed.

Lemma sizeUntouched_lookup h p r :
  sizeUntouched h -> h !! p = Some r -> Size r = 0 /\ writtenStatus (Status r).
Proof. intros Hh Hr. by apply (Forall_lookup_1 _ _ _ _ Hh Hr). Qed.

Lemma allocated_mono (w w' : world B) ps :
  (length (heap w) <= length (heap w'))%nat -> allocated w ps -> allocated w' ps.
Proof. intros Hle Hps. eapply Forall_impl; [exact Hps|]. simpl. intros; lia. Qed.

Lemma getRecords_loop_size lines records (w : world B) :
  sizeUntouched (heap w) -> allocated w records ->
  post (getRecords_loop lines records) w
    (fun rs w' => keeps w w' /\ allocated w' rs)
    (fun w' => keeps w w').
Proof.
  revert records w. induction lines as [|line lines IH]; intros records w Hw Hrs.
  { apply post_ret. by repeat split. }
  destruct line as [each|]; [|by apply post_fatal].
  simpl. destruct each as [|each0 [|each1 [|]]]; try by apply post_fatal.
  apply post_bind, post_alloc.
  assert (Hw1 : sizeUntouched (heap w ++
            [mkRecord (strings_TrimSpace each1) false 0 None "" notNasty [] None])).
  { apply Forall_app. split; [done|]. by repeat constructor. }
  destruct (strconv_ParseInt each0) as [i|].
  2:{ apply post_fatal. split; [done|]. heap_length. }
  apply post_bind, post_load; simpl.
  2:{ split; [done|]. heap_length. }
  intros r' Hr'. destruct (sizeUntouched_lookup _ _ _ Hw1 Hr') as [Hs Hst].
  apply post_bind, post_store.
  eapply post_mono; [apply IH| |]; simpl.
  - apply sizeUntouched_insert; [done|done|status_ok].
  - apply Forall_app. split.
    + eapply Forall_impl; [exact Hrs|]. intros; heap_length.
    + repeat constructor. heap_length.
  - intros rs w' [[? Hlen] ?]. split; [split; [done|]|done]. heap_length.
  - intros w' [? Hlen]. split; [done|]. heap_length.
Qed.

Lemma getRecords_size file (w : world B) :
  sizeUntouched (heap w) ->
  post (getRecords file) w
    (fun rs w' => keeps w w' /\ allocated w' rs)
    (fun w' => keeps w w').
Proof.
  intros Hw. destruct file as [lines|]; simpl.
  - apply getRecords_loop_size; [done|constructor].
  - by apply post_fatal, keeps_refl.
Qed.

Lemma skipRecords_loop_size records toret sk (w : world B) :
  sizeUntouched (heap w) -> allocated w toret ->
  post (skipRecords_loop records toret sk) w
    (fun res w' => keeps w w' /\ allocated w' res.1)
    (fun w' => keeps w w').
Proof.
  revert toret sk w. induction records as [|p records IH]; intros toret sk w Hw Ht.
  { apply post_ret. by repeat split. }
  simpl. apply post_bind, post_load; [|by apply keeps_refl].
  intros rv Hrv. destruct (sizeUntouched_lookup _ _ _ Hw Hrv) as [Hs Hst].
  apply post_bind, post_GetFileInfoByFXID. intros b res.
  assert (Hskip : forall sk',
    post (skipRecords_loop records toret sk')
      (mkWorld (heap w) b (events w ++ [EvGetFileInfo (FXID rv)]))
      (fun res w' => keeps w w' /\ allocated w' res.1) (fun w' => keeps w w')).
  { intros sk'. eapply post_mono; [by apply IH| |]; simpl.
    - intros ? ? [? ?]. split; [by eapply keeps_step|done].
    - intros ? ?. by eapply keeps_step. }
  destruct res as [err|fi]; [apply Hskip|].
  repeat (match goal with |- context [if ?c then _ else _] => destruct c end;
          [apply Hskip|]).
  apply post_bind, post_store.
  eapply post_mono; [apply IH| |]; simpl.
  - apply sizeUntouched_insert; [done|done|status_ok].
  - apply Forall_app. split.
    + eapply Forall_impl; [exact Ht|]. intros; heap_length.
    + repeat constructor. apply lookup_lt_Some in Hrv. heap_length.
  - intros ? ? [? ?]. split; [|done]. eapply keeps_step; [|done]. heap_length.
  - intros ? ?. eapply keeps_step; [|done]. heap_length.
Qed.

Lemma getRecordDistribution_loop_size records chunked nasty (w : world B) :
  sizeUntouched (heap w) ->
  post (getRecordDistribution_loop records chunked nasty) w
    (fun res w' => keeps w w' /\ res = (chunked ++ records, nasty))
    (fun w' => keeps w w').
Proof.
  revert chunked w. induction records as [|p records IH]; intros chunked w Hw.
  { apply post_ret. split; [by apply keeps_refl|by rewrite app_nil_r]. }
  simpl. apply post_bind, post_load; [|by apply keeps_refl].
  intros rv Hrv. destruct (sizeUntouched_lookup _ _ _ Hw Hrv) as [Hs Hst].
  rewrite Hs. change (isChunked 0) with true. cbv iota.
  apply post_bind, post_store.
  eapply post_mono; [apply IH| |]; simpl.
  - apply sizeUntouched_insert; [done|done|status_ok].
  - intros ? ? [? ->]. split; [|by rewrite <- app_assoc].
    eapply keeps_step; [|done]. heap_length.
  - intros ? ?. eapply keeps_step; [|done]. heap_length.
Qed.

Lemma analyze_loop_size chunked newchunked nasty (w : world B) :
  sizeUntouched (heap w) ->
  post (analyze_loop chunked newchunked nasty) w
    (fun _ w' => keeps w w') (fun w' => keeps w w').
Proof.
  revert newchunked nasty w.
  induction chunked as [|p chunked IH]; intros newchunked nasty w Hw.
  { by apply post_ret, keeps_refl. }
  simpl. apply post_bind, post_load; [|by apply keeps_refl].
  intros rv Hrv. apply post_bind, post_ListVersions. intros b res.
  destruct res as [err|versions]; [by apply post_fatal|].
  apply post_bind, post_assignVersions; simpl; [|done].
  intros r0 Hr0. destruct (sizeUntouched_lookup _ _ _ Hw Hr0) as [Hs Hst].
  set (h1 := <[p:=set_Versions r0 versions]> (heap w)).
  assert (Hh1 : sizeUntouched h1)
    by (apply sizeUntouched_insert; [done|done|status_ok]).
  assert (Hnext : forall r1 h b' es nc na,
    sizeUntouched h -> length h = length (heap w) ->
    Size r1 = 0 -> writtenStatus (Status r1) ->
    post (bind (store p r1) (fun _ => analyze_loop chunked nc na)) (mkWorld h b' es)
      (fun _ w' => keeps w w') (fun w' => keeps w w')).
  { intros r1 h b' es nc na Hh Hlen Hs1 Hst1.
    apply post_bind, post_store. simpl.
    eapply post_mono; [apply IH| |]; simpl.
    - apply sizeUntouched_insert; [done|done|status_ok].
    - intros ? ? ?. eapply keeps_step; [|done]. heap_length.
    - intros ? ?. eapply keeps_step; [|done]. heap_length. }
  apply post_bind, post_load; simpl.
  2:{ split; [done|]. subst h1. heap_length. }
  intros rv1 Hrv1. destruct (sizeUntouched_lookup _ _ _ Hh1 Hrv1) as [Hs1 Hst1].
  assert (Hlen1 : length h1 = length (heap w)) by (subst h1; heap_length).
  destruct (Versions rv1) as [|v vs] eqn:Hvs.
  { apply Hnext; [done..|status_ok]. }
  destruct (haveValidVersion rv1) as [valid rv2] eqn:Hhv.
  destruct (haveValidVersion_size rv1) as [Hs2 Hst2]. rewrite Hhv in Hs2, Hst2.
  simpl in Hs2, Hst2.
  assert (Hst2' : writtenStatus (Status rv2))
    by (destruct Hst2 as [-> | ->]; status_ok).
  destruct valid.
  { apply Hnext; [done..|congruence|done]. }
  apply post_bind, post_store. simpl.
  assert (Hh2 : sizeUntouched (<[p:=rv2]> h1))
    by (apply sizeUntouched_insert; [done|congruence|done]).
  apply post_bind, post_load; simpl.
  2:{ split; [done|]. heap_length. }
  intros rv3 Hrv3. destruct (sizeUntouched_lookup _ _ _ Hh2 Hrv3) as [Hs3 Hst3].
  apply Hnext; [done|heap_length|done|status_ok].
Qed.

Lemma analyzeNasty_size nasty (w : world B) :
  sizeUntouched (heap w) ->
  post (analyzeNasty nasty) w (fun _ w' => keeps w w') (fun w' => keeps w w').
Proof.
  revert w. induction nasty as [|p nasty IH]; intros w Hw.
  { by apply post_ret, keeps_refl. }
  simpl. apply post_bind, post_load; [|by apply keeps_refl].
  intros rv Hrv. destruct (sizeUntouched_lookup _ _ _ Hw Hrv) as [Hs Hst].
  apply post_bind, post_store.
  assert (Hh1 : sizeUntouched (<[p:=set_Handled rv true]> (heap w)))
    by (apply sizeUntouched_insert; [done|done|status_ok]).
  apply post_bind, post_load; simpl; [|split; [done|heap_length]].
  intros rv1 Hrv1. apply post_bind, post_ListVersions. intros b res.
  destruct res as [err|versions]; [apply post_fatal; split; [done|heap_length]|].
  apply post_bind, post_assignVersions; simpl; [|split; [done|heap_length]].
  intros r2 Hr2. destruct (sizeUntouched_lookup _ _ _ Hh1 Hr2) as [Hs2 Hst2].
  eapply post_mono; [apply IH| |]; simpl.
  - apply sizeUntouched_insert; [done|done|status_ok].
  - intros ? ? ?. eapply keeps_step; [|done]. heap_length.
  - intros ? ?. eapply keeps_step; [|done]. heap_length.
Qed.

Lemma rollback_size repair chunked (w : world B) :
  sizeUntouched (heap w) ->
  post (rollback repair chunked) w (fun _ w' => keeps w w') (fun w' => keeps w w').
Proof.
  revert w. induction chunked as [|p chunked IH]; intros w Hw.
  { by apply post_ret, keeps_refl. }
  simpl. apply post_bind, post_load; [|by apply keeps_refl].
  intros rv Hrv. destruct (ValidVersion rv) as [v|]; [|by apply post_panic, keeps_refl].
  apply post_bind. destruct repair.
  - apply post_bind, post_RollbackToVersion. intros b res.
    apply post_ret. eapply post_mono; [by apply IH| |]; simpl.
    + intros ? ? ?. by eapply keeps_step.
    + intros ? ?. by eapply keeps_step.
  - apply post_ret. by apply IH.
Qed.

Lemma resolve_size file (w : world B) :
  sizeUntouched (heap w) ->
  post (resolve file) w
    (fun st w' =>
       keeps w w' /\ allocated w' (st_newRecords st) /\
       st_chunked0 st = st_newRecords st /\ st_nasty0 st = [])
    (fun w' => keeps w w').
Proof.
  intros Hw. unfold resolve.
  apply post_bind. eapply post_mono; [by apply getRecords_size| |done].
  intros records w1 [[Hw1 Hl1] Hrs]. simpl.
  apply post_bind. eapply post_mono;
    [apply skipRecords_loop_size; [done|constructor]| |].
  2:{ intros ? ?. by eapply keeps_step. }
  intros fs w2 [[Hw2 Hl2] Hfs]. simpl.
  apply post_bind. eapply post_mono;
    [by apply getRecordDistribution_loop_size| |].
  2:{ intros ? ?. eapply keeps_step; [|done]. lia. }
  intros cn w3 [[Hw3 Hl3] ->]. simpl.
  apply post_bind. eapply post_mono; [by apply analyze_loop_size| |].
  2:{ intros ? ?. eapply keeps_step; [|done]. lia. }
  intros cn' w4 [Hw4 Hl4]. apply post_ret. simpl.
  split; [split; [done|lia]|]. split; [|done].
  eapply allocated_mono; [|exact Hfs]. lia.
Qed.

Lemma main_size repair file (b : B) :
  post (main repair file) (start b)
    (fun _ w' => sizeUntouched (heap w')) (fun w' => sizeUntouched (heap w')).
Proof.
  assert (H0 : sizeUntouched (heap (start b))) by constructor.
  assert (Hk : forall w w' : world B, keeps w w' -> sizeUntouched (heap w'))
    by (by intros w w' [? _]).
  unfold main. apply post_bind.
  eapply post_mono; [by apply resolve_size| |apply Hk].
  intros st w1 [[Hw1 _] _]. simpl.
  apply post_bind. eapply post_mono; [by apply analyzeNasty_size| |apply Hk].
  intros ? w2 [Hw2 _]. simpl.
  eapply post_mono; [by apply rollback_size| |apply Hk].
  intros ? w3. apply Hk.
Qed.

(** No run of [main] writes [repairable], [nastyNotChunk] or
    [nastyNotExistsAnymore] to a record. *)
Lemma main_statuses repair file (b : B) :
  post (main repair file) (start b)
    (fun _ w' => Forall (fun r => writtenStatus (Status r)) (heap w'))
    (fun w' => Forall (fun r => writtenStatus (Status r)) (heap w')).
Proof.
  assert (Hs : forall h, sizeUntouched h ->
            Forall (fun r => writtenStatus (Status r)) h).
  { intros h Hh. eapply Forall_impl; [exact Hh|]. by intros r [_ ?]. }
  eapply post_mono; [apply main_size| |]; simpl; eauto.
Qed.

(** C10: in every run of [main] from a fresh process, however it ends,
    every record still has size 0 and a status other than [nastyNotChunk];
    and once resolution is over, every record that passed the filter is a
    record of size 0 for which [isChunked] holds, the classifier has put all
    of them in [chunked] and none in [nasty]. *)
Theorem size_stays_zero (repair : bool) (file : option (list csvRead)) (b : B) :
  post (main repair file) (start b)
    (fun _ w' => sizeNeverSet (heap w')) (fun w' => sizeNeverSet (heap w')) /\
  post (resolve file) (start b)
    (fun st w' =>
       sizeNeverSet (heap w') /\
       (forall p, p ∈ st_newRecords st ->
          exists r, heap w' !! p = Some r /\ Size r = 0 /\
                    isChunked (Size r) = true /\ Status r <> nastyNotChunk) /\
       st_chunked0 st = st_newRecords st /\ st_nasty0 st = [])
    (fun w' => sizeNeverSet (heap w')).
Proof.
  assert (H0 : sizeUntouched (heap (start b))) by constructor.
  assert (Hk : forall w w' : world B, keeps w w' -> sizeNeverSet (heap w')).
  { intros w w' [Hw' _]. by apply sizeUntouched_never_set. }
  split.
  - eapply post_mono; [apply main_size| |];
      simpl; eauto using sizeUntouched_never_set.
  - eapply post_mono; [by apply resolve_size| |apply Hk].
    intros st w1 ([Hw1 _] & Hal & Hc & Hn). simpl.
    split; [by apply sizeUntouched_never_set|]. split; [|done].
    intros p Hp. unfold allocated in Hal. rewrite Forall_forall in Hal.
    destruct (lookup_lt_is_Some_2 _ _ (Hal _ Hp)) as [r Hr].
    destruct (sizeUntouched_lookup _ _ _ Hw1 Hr) as [Hs Hst].
    exists r. rewrite Hs. repeat split; [done|]. status_ok.
Qed.

End SizeFacts.

(** * C4: the outcome of resolution *)

Section OutcomeFacts.
Context {B : Type} {client : EosClient B} {rt : GoRuntime}.

Lemma pathsAt_files (h h' : list record) ps :
  File <$> h' = File <$> h -> pathsAt h' ps = pathsAt h ps.
Proof.
  intros Hfiles. induction ps as [|p ps IH]; simpl; [done|].
  assert (Hp : File <$> h' !! p = File <$> h !! p)
    by (by rewrite <- !list_lookup_fmap, Hfiles).
  destruct (h' !! p) as [r'|], (h !! p) as [r|]; simpl in Hp; try done.
  injection Hp as ->. by rewrite IH.
Qed.

Lemma files_insert (h : list record) (p : ptr) r0 r1 :
  h !! p = Some r0 -> File r1 = File r0 ->
  File <$> <[p:=r1]> h = File <$> h.
Proof.
  intros Hr0 Hfile. rewrite list_fmap_insert. apply list_insert_id.
  rewrite list_lookup_fmap, Hfile. unfold ptr in Hr0. by rewrite Hr0.
Qed.

Lemma lastAt_head p (ps : list ptr) : lastAt (p :: ps) 0 p -> p ∉ ps.
Proof.
  intros [_ Hlast] [j Hj]%list_elem_of_lookup.
  apply (Hlast (S j)); [lia|done].
Qed.

Lemma lastAt_tail p q (ps : list ptr) i : lastAt (p :: ps) (S i) q -> lastAt ps i q.
Proof.
  intros [Hi Hlast]. split; [done|].
  intros j Hj. apply (Hlast (S j)). lia.
Qed.

(** One turn of the loop of [analyze], on a record that is on the heap and
    whose listing the backend answers. *)
Lemma analyze_loop_step p rest newchunked nasty (w : world B) r b versions :
  heap w !! p = Some r ->
  ListVersions (eos w) (File r) = (b, inr versions) ->
  exists r1 newchunked' nasty',
    analyze_loop (p :: rest) newchunked nasty w =
    analyze_loop rest newchunked' nasty'
      (mkWorld (<[p:=r1]> (heap w)) b
         (events w ++ [EvListVersions (File r); EvSetVersions p])) /\
    File r1 = File r /\
    Versions r1 = sortVersions versions /\
    (Status r1 = nastyNoVersions <-> versions = []) /\
    (Status r1 = nastyInvalidVersion <-> versions <> [] /\ allChunked versions).
Proof.
  intros Hr Hlist.
  pose proof (lookup_lt_Some _ _ _ Hr) as Hp.
  simpl. unfold bind at 1, load. rewrite Hr.
  unfold bind at 1, callListVersions. rewrite Hlist.
  unfold bind at 1, assignVersions, bind at 1, load. simpl. rewrite Hr.
  unfold bind at 1, store, emit. simpl.
  unfold bind at 1. simpl. rewrite list_lookup_insert_eq by done. simpl.
  rewrite <- app_assoc. simpl.
  destruct versions as [|v vs].
  { exists (set_Status (set_Versions r []) nastyNoVersions), newchunked, (nasty ++ [p]).
    unfold bind at 1. simpl. rewrite list_insert_insert_eq.
    split; [done|]. split; [done|]. split.
    - simpl. symmetry. apply Permutation_nil. by rewrite sortVersions_perm.
    - simpl. split; [done|]. split; [done|]. by intros [? _]. }
  rewrite haveValidVersion_eq. simpl.
  destruct (firstNotChunked (sortVersions (v :: vs))) as [valid|] eqn:Hfirst.
  - eexists _, (newchunked ++ [p]), nasty.
    unfold bind at 1. simpl. rewrite list_insert_insert_eq.
    split; [done|]. simpl. split; [done|]. split; [done|].
    split; [done|]. split; [done|]. intros [_ Hall].
    assert (Hnone : firstNotChunked (sortVersions (v :: vs)) = None).
    { apply firstNotChunked_None. unfold allChunked in Hall.
      by rewrite sortVersions_perm. }
    congruence.
  - eexists _, newchunked, (nasty ++ [p]).
    unfold bind at 1. simpl. unfold bind at 1. simpl.
    rewrite list_lookup_insert_eq by (by rewrite length_insert). simpl.
    unfold bind at 1. simpl. rewrite !list_insert_insert_eq.
    split; [done|]. simpl. split; [done|]. split; [done|].
    split; [done|]. split; [|done]. intros _. split; [done|].
    apply firstNotChunked_None in Hfirst. unfold allChunked.
    by rewrite <- (sortVersions_perm (v :: vs)).
Qed.

(** The whole loop of [analyze] against the answers of the backend. *)
Lemma analyze_loop_answers chunked newchunked nasty (w : world B) paths answers :
  pathsAt (heap w) chunked = Some paths ->
  listings (eos w) paths = Some answers ->
  exists res w',
    analyze_loop chunked newchunked nasty w = Done res w' /\
    (forall q, q ∉ chunked -> heap w' !! q = heap w !! q) /\
    File <$> heap w' = File <$> heap w /\
    events w' = events w ++ listingEvents paths chunked /\
    eos w' = storeAfter (eos w) (listingEvents paths chunked) /\
    forall i p versions,
      lastAt chunked i p -> answers !! i = Some versions ->
      exists r, heap w' !! p = Some r /\
        Versions r = sortVersions versions /\
        (Status r = nastyNoVersions <-> versions = []) /\
        (Status r = nastyInvalidVersion <-> versions <> [] /\ allChunked versions).
Proof.
  revert newchunked nasty w paths answers.
  induction chunked as [|p chunked IH]; intros newchunked nasty w paths answers.
  { intros [= <-] [= <-]. eexists _, w. split; [done|]. split; [done|].
    split; [done|]. split; [by rewrite app_nil_r|]. split; [done|].
    by intros i p versions [? _]. }
  intros Hpaths0 Hanswers0. simpl in Hpaths0.
  destruct (heap w !! p) as [r|] eqn:Hr; [|done].
  destruct (pathsAt (heap w) chunked) as [paths'|] eqn:Hpaths; [|done].
  injection Hpaths0 as <-. simpl in Hanswers0.
  destruct (ListVersions (eos w) (File r)) as [b [err|versions]] eqn:Hlist; [done|].
  destruct (listings b paths') as [answers'|] eqn:Hanswers; [|done].
  injection Hanswers0 as <-.
  destruct (analyze_loop_step p chunked newchunked nasty w r b versions Hr Hlist)
    as (r1 & nc & na & Hstep & Hfile & Hr1).
  pose proof (lookup_lt_Some _ _ _ Hr) as Hp.
  set (w1 := mkWorld (<[p:=r1]> (heap w)) b
               (events w ++ [EvListVersions (File r); EvSetVersions p])) in *.
  assert (Hfiles1 : File <$> heap w1 = File <$> heap w)
    by (by apply (files_insert _ _ r)).
  destruct (IH nc na w1 paths' answers')
    as (res & w' & Hrun & Hframe & Hfiles & Hev & Heos & Hall).
  { rewrite <- Hpaths. by apply pathsAt_files. }
  { done. }
  exists res, w'. split; [by rewrite Hstep|]. split; [|split; [|split; [|split]]].
  - intros q Hq. apply not_elem_of_cons in Hq as [Hne Hq].
    rewrite (Hframe q Hq). simpl. by apply list_lookup_insert_ne.
  - by rewrite Hfiles.
  - rewrite Hev. simpl. unfold listingEvents. simpl. by rewrite <- app_assoc.
  - rewrite Heos. unfold storeAfter, listingEvents. simpl. by rewrite Hlist.
  - intros [|i] q vs Hlast Hvs.
    + destruct Hlast as [[= <-] ?]. injection Hvs as <-.
      exists r1. split; [|done].
      rewrite (Hframe p); [|by apply lastAt_head].
      simpl. by apply list_lookup_insert_eq.
    + apply (Hall i q vs); [by eapply lastAt_tail|done].
Qed.

(** C4: when every record of [chunked] is on the heap and the backend
    answers the listing of each of their paths, [analyze] returns, and the
    record behind each pointer of [chunked] then holds the answer to its
    listing, newest first, with status [nastyNoVersions] exactly when that
    answer is empty, and status [nastyInvalidVersion] exactly when the answer
    is not empty and every version in it has a chunk-aligned size.  A pointer
    that stands more than once in [chunked] is judged by its last listing. *)
Theorem analyze_outcome_matches_versions (chunked nasty : list ptr) (w : world B)
    (paths : list string) (answers : list (list FileInfo)) :
  pathsAt (heap w) chunked = Some paths ->
  listings (eos w) paths = Some answers ->
  exists res w',
    analyze chunked nasty w = Done res w' /\
    forall i p versions,
      lastAt chunked i p -> answers !! i = Some versions ->
      exists r, heap w' !! p = Some r /\
        Versions r = sortVersions versions /\
        (Status r = nastyNoVersions <-> versions = []) /\
        (Status r = nastyInvalidVersion <->
           versions <> [] /\
           Forall (fun v => isChunked (eosclient.Size v) = true) versions).
Proof.
  intros Hpaths Hanswers.
  destruct (analyze_loop_answers chunked [] nasty w paths answers Hpaths Hanswers)
    as (res & w' & Hrun & _ & _ & _ & _ & Hall).
  by exists res, w'.
Qed.

End OutcomeFacts.

(** C4 at three records: the first has no versions, the versions of the
    second are all chunk-aligned, the third has a version that is not. *)
Lemma analyze_outcome_matches_versions_witness :
  exists res w',
    analyze (rt:=go118) [0; 1; 2]%nat [] (mkWorld threeRecords storeThreeFiles [])
      = Done res w' /\
    (forall i p versions,
       lastAt [0; 1; 2]%nat i p ->
       [[]; uploadVersions; [version90; version100]] !! i = Some versions ->
       exists r, heap w' !! p = Some r /\
         Versions r = sortVersions (rt:=go118) versions /\
         (Status r = nastyNoVersions <-> versions = []) /\
         (Status r = nastyInvalidVersion <->
            versions <> [] /\
            Forall (fun v => isChunked (eosclient.Size v) = true) versions)) /\
    Status <$> heap w' = [nastyNoVersions; nastyInvalidVersion; notNasty] /\
    Versions <$> heap w' = [[]; reverse uploadVersions; [version100; version90]].
Proof.
  destruct (analyze_outcome_matches_versions (rt:=go118) [0; 1; 2]%nat []
              (mkWorld threeRecords storeThreeFiles [])
              [emptyPath; uploadPath; samplePath]
              [[]; uploadVersions; [version90; version100]])
    as (res & w' & Hrun & Hall); [by vm_compute..|].
  exists res, w'. split; [exact Hrun|]. split; [exact Hall|].
  vm_compute in Hrun. injection Hrun as <- <-. split; reflexivity.
Defined.

(** * C7: the rollback executor *)

Section RollbackFacts.
Context {B : Type} {client : EosClient B} {rt : GoRuntime}.

Lemma rollback_dry_run chunked (w : world B) :
  post (rollback false chunked) w (fun _ w' => w' = w) (fun w' => w' = w).
Proof.
  induction chunked as [|p chunked IH]; simpl; [done|].
  apply post_bind, post_load; [|done]. intros rv _.
  destruct (ValidVersion rv); [|done].
  apply post_bind, post_ret. apply IH.
Qed.

Lemma rollback_execute chunked (w : world B) :
  (forall p, p ∈ chunked ->
     exists r v, heap w !! p = Some r /\ ValidVersion r = Some v) ->
  exists w' calls,
    rollback true chunked w = Done tt w' /\
    heap w' = heap w /\
    events w' = events w ++ calls /\
    Forall2 (rollbackCall (heap w)) chunked calls /\
    eos w' = storeAfter (eos w) calls.
Proof.
  revert w. induction chunked as [|p chunked IH]; intros w Hall.
  { exists w, []. simpl. rewrite app_nil_r. by repeat split. }
  destruct (Hall p) as (r & v & Hr & Hv); [by left|].
  simpl. unfold bind at 1, load. rewrite Hr, Hv.
  unfold bind at 1, bind at 1, callRollbackToVersion.
  destruct (RollbackToVersion (eos w) (File r) (path_Base (eosclient.File v)))
    as [b res] eqn:Hcall. simpl.
  set (w1 := mkWorld (heap w) b
               (events w ++ [EvRollback (File r) (path_Base (eosclient.File v))])).
  destruct (IH w1) as (w' & calls & Hrun & Hheap & Hev & Hcalls & Heos).
  { intros q Hq. apply Hall. by right. }
  exists w', (EvRollback (File r) (path_Base (eosclient.File v)) :: calls).
  split; [done|]. split; [done|]. split; [|split].
  - rewrite Hev. simpl. by rewrite <- app_assoc.
  - constructor; [|done]. by exists r, v.
  - rewrite Heos. unfold storeAfter. simpl. by rewrite Hcall.
Qed.

(** C7: with the [repair] flag off, [rollback] leaves the world as it is,
    however it ends: no backend call is made for any record, and the store
    behind the client is the one it started from.  With the flag on and a
    valid version behind every record, [rollback] returns having made
    exactly one [RollbackToVersion] call per record, in order, whatever the
    backend answers to each call: the log grows by one rollback per record,
    for the path of the record and the base name of its valid version, and
    the store is the one the client leaves after serving exactly these
    calls. *)
Theorem rollback_calls (chunked : list ptr) (w : world B) :
  post (rollback false chunked) w (fun _ w' => w' = w) (fun w' => w' = w) /\
  ((forall p, p ∈ chunked ->
      exists r v, heap w !! p = Some r /\ ValidVersion r = Some v) ->
   exists w' calls,
     rollback true chunked w = Done tt w' /\
     heap w' = heap w /\
     events w' = events w ++ calls /\
     Forall2 (rollbackCall (heap w)) chunked calls /\
     eos w' = storeAfter (eos w) calls).
Proof. split; [apply rollback_dry_run|apply rollback_execute]. Qed.

End RollbackFacts.

(** * C8: stores to the [Versions] field *)



Section StoreFacts.
Context {B : Type} {client : EosClient B} {rt : GoRuntime}.












End StoreFacts.

(** * The filter and the size of a record *)

Section FilterFacts.
Context {B : Type} {client : EosClient B}.

(** Whatever the heap holds and whatever the store answers, the filter
    leaves the size of every record as it found it. *)
Lemma skipRecords_loop_keeps_sizes records toret sk (w : world B) :
  post (skipRecords_loop records toret sk) w
    (fun _ w' => Size <$> heap w' = Size <$> heap w)
    (fun w' => Size <$> heap w' = Size <$> heap w).
Proof.
  revert toret sk w. induction records as [|p records IH]; intros toret sk w.
  { by apply post_ret. }
  simpl. apply post_bind, post_load; [|done]. intros rv Hrv.
  apply post_bind, post_GetFileInfoByFXID. intros b res.
  assert (Hskip : forall sk',
    post (skipRecords_loop records toret sk')
      (mkWorld (heap w) b (events w ++ [EvGetFileInfo (FXID rv)]))
      (fun _ w' => Size <$> heap w' = Size <$> heap w)
      (fun w' => Size <$> heap w' = Size <$> heap w))
    by (intros; eapply post_mono; [apply IH|done..]).
  destruct res as [err|fi]; [apply Hskip|].
  repeat (match goal with |- context [if ?c then _ else _] => destruct c end;
          [apply Hskip|]).
  apply post_bind, post_store.
  eapply post_mono; [apply IH| |]; simpl.
  - intros ? w' ->. rewrite list_fmap_insert. apply list_insert_id.
    rewrite list_lookup_fmap. unfold ptr in Hrv. by rewrite Hrv.
  - intros w' ->. rewrite list_fmap_insert. apply list_insert_id.
    rewrite list_lookup_fmap. unfold ptr in Hrv. by rewrite Hrv.
Qed.

End FilterFacts.

(** * The code at the inputs where it departs from the specification *)

(** C1: the filter against a store that reports 30,000,000 bytes for the
    sample file.  The record passes with its path set from the metadata and
    its size still 0. *)
Theorem skipRecords_does_not_set_size :
  GetFileInfoByFXID storeRepairable "018edb0f"
    = (storeRepairable, inr (eosclient.mkFileInfo samplePath 30000000 1592324325)) /\
  skipRecords [0%nat] (mkWorld [loadedRecord] storeRepairable [])
    = Done ([0%nat], mkSkipped 0 0 0)
        (mkWorld [filteredRecord] storeRepairable [EvGetFileInfo "018edb0f"]) /\
  File filteredRecord = samplePath /\
  Size filteredRecord = 0 /\
  Size filteredRecord <> 30000000.
Proof. vm_compute. repeat split; congruence. Qed.

(** C5: the whole run on the sample line against a store that holds a
    complete older version.  The record ends with that version as its
    [ValidVersion] and with status [notNasty]: the status [repairable] is
    not written. *)
Theorem main_valid_version_without_repairable :
  main (rt:=go118) false sampleFile (start storeRepairable)
    = Done tt
        (mkWorld [repairedRecord] storeRepairable
           [EvGetFileInfo "018edb0f"; EvListVersions samplePath; EvSetVersions 0%nat]) /\
  ValidVersion repairedRecord = Some version90 /\
  Status repairedRecord = notNasty /\
  Status repairedRecord <> repairable.
Proof. vm_compute. repeat split; congruence. Qed.

(** C6: the whole run on the sample line against a store in which the file
    is not found when its versions are listed.  The run ends in
    [log.Fatal]; the record keeps status [notNasty]. *)
Theorem main_not_found_is_fatal :
  ListVersions storeVanished samplePath = (storeVanished, inl eosclient.ErrNotFound) /\
  main (rt:=go118) false sampleFile (start storeVanished)
    = Abort Fatal
        (mkWorld [classifiedRecord] storeVanished
           [EvGetFileInfo "018edb0f"; EvListVersions samplePath]) /\
  Status classifiedRecord = notNasty /\
  Status classifiedRecord <> nastyNotExistsAnymore.
Proof. vm_compute. repeat split; congruence. Qed.

(** C7 at the sample record, against a store that keeps a journal: one
    failing rollback call in execute mode, which the journal holds,
    none in a dry run. *)
Lemma rollback_calls_witness :
  post (rollback (client:=journalClient) (rt:=go118) false [0%nat])
    (mkWorld [repairedRecord] [] [])
    (fun _ w' => w' = mkWorld [repairedRecord] [] [])
    (fun w' => w' = mkWorld [repairedRecord] [] []) /\
  exists w' calls,
    rollback (client:=journalClient) (rt:=go118) true [0%nat]
      (mkWorld [repairedRecord] [] []) = Done tt w' /\
    heap w' = [repairedRecord] /\
    events w' = [] ++ calls /\
    Forall2 (rollbackCall (rt:=go118) [repairedRecord]) [0%nat] calls /\
    eos w' = storeAfter (client:=journalClient) [] calls /\
    eos w' = [(samplePath, "90.018edb0f"%string)].
Proof.
  destruct (rollback_calls (client:=journalClient) (rt:=go118) [0%nat]
              (mkWorld [repairedRecord] [] [])) as [Hdry Hexec].
  split; [exact Hdry|].
  destruct Hexec as (w' & calls & Hrun & Hheap & Hev & Hcalls & Heos).
  { intros p Hp. apply list_elem_of_singleton in Hp. subst p.
    exists repairedRecord, version90. split; reflexivity. }
  exists w', calls. repeat (split; [assumption|]).
  vm_compute in Hrun. injection Hrun as <-. reflexivity.
Defined.


(** * Further properties of the code *)

(** ** Status descriptions *)

(** X10: [String] gives each of the six status constants a description of
    its own, and ends the run for every other value. *)
Theorem status_String_distinct :
  (forall s, is_Some (status_String (status_code s))) /\
  (forall s1 s2, status_String (status_code s1) = status_String (status_code s2) ->
                 s1 = s2) /\
  (forall c, status_String c = None <-> ~ (0 <= c <= 5)).
Proof.
  split; [|split].
  - intros []; vm_compute; eauto.
  - intros [] []; vm_compute; congruence.
  - intros c. unfold status_String, status_code.
    repeat (match goal with |- context [c =? ?n] => destruct (Z.eqb_spec c n) end);
      split; try discriminate; try lia; done.
Qed.

(** ** The resolver on one record, in full *)

Section VerdictFacts.
Context {rt : GoRuntime}.

Lemma haveValidVersion_facts (r : record) :
  let ok := (haveValidVersion r).1 in
  let r' := (haveValidVersion r).2 in
  (ok = true <-> exists v, v ∈ Versions r /\ notChunked v) /\
  FXID r' = FXID r /\ Handled r' = Handled r /\ Size r' = Size r /\
  Date r' = Date r /\ File r' = File r /\
  Versions r' ≡ₚ Versions r /\
  (ok = false -> Status r' = Status r /\ ValidVersion r' = ValidVersion r) /\
  (ok = true -> Status r' = notNasty /\
     exists v, ValidVersion r' = Some v /\ v ∈ Versions r /\ notChunked v).
Proof.
  simpl. rewrite haveValidVersion_eq. simpl.
  destruct (firstNotChunked (sortVersions (Versions r))) as [v|] eqn:Hf; simpl.
  - destruct (firstNotChunked_Some _ _ Hf) as (l1 & l2 & Heq & _ & Hv).
    assert (Hin : v ∈ Versions r).
    { rewrite <- (sortVersions_perm (Versions r)), Heq.
      apply elem_of_app. right. by left. }
    repeat split; try done; eauto using sortVersions_perm.
  - apply firstNotChunked_None in Hf. rewrite Forall_forall in Hf.
    repeat split; try done; eauto using sortVersions_perm.
    intros (v & Hin & Hv). rewrite <- (sortVersions_perm (Versions r)) in Hin.
    specialize (Hf _ Hin). unfold notChunked in Hv. congruence.
Qed.

(** X5: [haveValidVersion] answers true exactly when some version is not
    chunk-aligned.  It never touches [FXID], [Handled], [Size], [Date] or
    [File] and only rearranges [Versions]; when it answers false it leaves
    [Status] and [ValidVersion] as they were, and when it answers true the
    valid version is one of the record's versions and is not chunk-aligned. *)
Theorem haveValidVersion_verdict (r : record) :
  let ok := (haveValidVersion r).1 in
  let r' := (haveValidVersion r).2 in
  (ok = true <-> exists v, v ∈ Versions r /\ notChunked v) /\
  FXID r' = FXID r /\ Handled r' = Handled r /\ Size r' = Size r /\
  Date r' = Date r /\ File r' = File r /\
  Versions r' ≡ₚ Versions r /\
  (ok = false -> Status r' = Status r /\ ValidVersion r' = ValidVersion r) /\
  (ok = true -> Status r' = notNasty /\
     exists v, ValidVersion r' = Some v /\ v ∈ Versions r /\ notChunked v).
Proof. apply haveValidVersion_facts. Qed.

(** X6: sorting twice is sorting once, and a list that is already newest
    first is left as it is, when versions with the same modification time
    are the same version. *)
Theorem sortVersions_idempotent (l : list FileInfo) :
  (forall a b, a ∈ l -> b ∈ l ->
     eosclient.MTimeSec a = eosclient.MTimeSec b -> a = b) ->
  sortVersions (sortVersions l) = sortVersions l /\
  (newestFirst l -> sortVersions l = l).
Proof.
  intros Hdistinct.
  assert (Huniq : forall l1 l2, l1 ≡ₚ l -> l2 ≡ₚ l ->
            newestFirst l1 -> newestFirst l2 -> l1 = l2).
  { intros l1 l2 H1 H2 Hs1 Hs2.
    apply (StronglySorted_unique_strong
             (fun a b => eosclient.MTimeSec b <= eosclient.MTimeSec a));
      [|done|done|by rewrite H1, H2].
    intros a b Ha Hb Hab Hba. rewrite H1 in Ha. rewrite H2 in Hb.
    apply Hdistinct; [done..|lia]. }
  split.
  - apply Huniq; [by rewrite !sortVersions_perm|apply sortVersions_perm|
                  apply sortVersions_newestFirst..].
  - intros Hl. apply Huniq; [apply sortVersions_perm|done|
                             apply sortVersions_newestFirst|done].
Qed.

End VerdictFacts.

Lemma sortVersions_idempotent_witness :
  sortVersions (rt:=go118) (sortVersions (rt:=go118) [versionA; fragment 4; versionOld])
    = sortVersions (rt:=go118) [versionA; fragment 4; versionOld] /\
  sortVersions (rt:=go118) [versionA; fragment 4; versionOld]
    = [versionA; fragment 4; versionOld].
Proof.
  destruct (sortVersions_idempotent (rt:=go118) [versionA; fragment 4; versionOld])
    as [Htwice Hsorted].
  - intros a b Ha Hb Hab.
    apply list_elem_of_In in Ha, Hb. simpl in Ha, Hb.
    destruct Ha as [<-|[<-|[<-|[]]]], Hb as [<-|[<-|[<-|[]]]];
      first [reflexivity | discriminate Hab].
  - split; [exact Htwice|]. apply Hsorted.
    unfold newestFirst. repeat constructor; vm_compute; discriminate.
Defined.

(** ** Runs that say how they end *)

#[global] Instance sameButFile_refl : Reflexive sameButFile.
Proof. by intros r. Qed.
#[global] Instance sameButFile_trans : Transitive sameButFile.
Proof. unfold sameButFile. intros r1 r2 r3 ? ?. intuition congruence. Qed.
#[global] Instance sameButClass_refl : Reflexive sameButClass.
Proof. by intros r. Qed.
#[global] Instance sameButClass_trans : Transitive sameButClass.
Proof. unfold sameButClass. intros r1 r2 r3 ? ?. intuition congruence. Qed.
#[global] Instance sameButResolution_refl : Reflexive sameButResolution.
Proof. by intros r. Qed.
#[global] Instance sameButResolution_trans : Transitive sameButResolution.
Proof. unfold sameButResolution. intros r1 r2 r3 ? ?. intuition congruence. Qed.
#[global] Instance sameButListing_refl : Reflexive sameButListing.
Proof. by intros r. Qed.
#[global] Instance sameButListing_trans : Transitive sameButListing.
Proof. unfold sameButListing. intros r1 r2 r3 ? ?. intuition congruence. Qed.

Lemma lookup_agree (h : list record) (p : ptr) r r' :
  h !! p = Some r -> h !! p = Some r' -> r = r'.
Proof. congruence. Qed.

Lemma framed_refl R `{!Reflexive R} h : framed R h h.
Proof. split; [done|]. intros p r Hr. by exists r. Qed.

Lemma framed_trans R `{!Transitive R} h1 h2 h3 :
  framed R h1 h2 -> framed R h2 h3 -> framed R h1 h3.
Proof.
  intros [Hl1 H1] [Hl2 H2]. split; [congruence|].
  intros p r Hr. destruct (H1 p r Hr) as (r2 & Hr2 & HR2).
  destruct (H2 p r2 Hr2) as (r3 & Hr3 & HR3). exists r3. split; [done|].
  by transitivity r2.
Qed.

Lemma framed_insert R `{!Reflexive R} h p rv r1 :
  h !! p = Some rv -> R rv r1 -> framed R h (<[p:=r1]> h).
Proof.
  intros Hrv HR. split; [by rewrite length_insert|].
  intros q r Hr. destruct (decide (q = p)) as [->|Hne].
  - exists r1. rewrite list_lookup_insert_eq by (by eapply lookup_lt_Some).
    split; [done|]. congruence.
  - exists r. by rewrite list_lookup_insert_ne.
Qed.

Lemma framed_allocated {B} R (w w' : world B) ps :
  framed R (heap w) (heap w') -> allocated w ps -> allocated w' ps.
Proof. intros [Hlen _]. apply allocated_mono. lia. Qed.

Section EndsFacts.
Context {B : Type} {client : EosClient B} {rt : GoRuntime}.

Lemma ends_ret {A} (a : A) (w : world B) (Q : A -> world B -> Prop) E :
  Q a w -> ends (ret a) w Q E.
Proof. done. Qed.

Lemma ends_bind {A C} (m : M B A) (f : A -> M B C) w Q E :
  ends m w (fun a w' => ends (f a) w' Q E) E -> ends (bind m f) w Q E.
Proof. unfold ends, bind. by destruct (m w). Qed.

Lemma ends_mono {A} (m : M B A) w (Q Q' : A -> world B -> Prop)
    (E E' : abort -> world B -> Prop) :
  ends m w Q E ->
  (forall a w', Q a w' -> Q' a w') -> (forall k w', E k w' -> E' k w') ->
  ends m w Q' E'.
Proof. unfold ends. destruct (m w); auto. Qed.

Lemma ends_fatal {A} (w : world B) (Q : A -> world B -> Prop) E :
  E Fatal w -> ends fatal w Q E.
Proof. done. Qed.

Lemma ends_load p r (w : world B) (Q : record -> world B -> Prop) E :
  heap w !! p = Some r -> Q r w -> ends (load p) w Q E.
Proof. intros Hr HQ. unfold ends, load. by rewrite Hr. Qed.

Lemma ends_store p r (w : world B) (Q : unit -> world B -> Prop) E :
  Q tt (mkWorld (<[p:=r]> (heap w)) (eos w) (events w)) -> ends (store p r) w Q E.
Proof. done. Qed.

Lemma ends_alloc r (w : world B) (Q : ptr -> world B -> Prop) E :
  Q (length (heap w)) (mkWorld (heap w ++ [r]) (eos w) (events w)) ->
  ends (alloc r) w Q E.
Proof. done. Qed.

Lemma ends_GetFileInfoByFXID fxid (w : world B) (Q : _ -> world B -> Prop) E :
  (forall b res, Q res (mkWorld (heap w) b (events w ++ [EvGetFileInfo fxid]))) ->
  ends (callGetFileInfoByFXID fxid) w Q E.
Proof.
  intros HQ. unfold ends, callGetFileInfoByFXID.
  destruct (GetFileInfoByFXID (eos w) fxid). apply HQ.
Qed.

Lemma ends_ListVersions path (w : world B) (Q : _ -> world B -> Prop) E :
  (forall b res, Q res (mkWorld (heap w) b (events w ++ [EvListVersions path]))) ->
  ends (callListVersions path) w Q E.
Proof.
  intros HQ. unfold ends, callListVersions.
  destruct (ListVersions (eos w) path). apply HQ.
Qed.

Lemma ends_RollbackToVersion path version (w : world B) (Q : _ -> world B -> Prop) E :
  (forall b res, Q res (mkWorld (heap w) b (events w ++ [EvRollback path version]))) ->
  ends (callRollbackToVersion path version) w Q E.
Proof.
  intros HQ. unfold ends, callRollbackToVersion.
  destruct (RollbackToVersion (eos w) path version). apply HQ.
Qed.

Lemma ends_Done {A} (m : M B A) (w : world B) (Q : A -> world B -> Prop) :
  ends m w Q (fun _ _ => False) -> exists a w', m w = Done a w' /\ Q a w'.
Proof. unfold ends. destruct (m w); [eauto|done]. Qed.

Lemma ends_assignVersions p r vs (w : world B) (Q : unit -> world B -> Prop) E :
  heap w !! p = Some r ->
  Q tt (mkWorld (<[p:=set_Versions r vs]> (heap w)) (eos w)
          (events w ++ [EvSetVersions p])) ->
  ends (assignVersions p vs) w Q E.
Proof.
  intros Hr HQ. unfold assignVersions.
  eapply ends_bind, ends_load; [exact Hr|].
  by apply ends_bind, ends_store.
Qed.

End EndsFacts.

(** ** The loader *)

Section LoaderFacts.
Context {B : Type} {client : EosClient B} {rt : GoRuntime}.

Lemma getRecords_loop_step line lines records r (w : world B) :
  lineRecord line = Some r ->
  getRecords_loop (line :: lines) records w
  = getRecords_loop lines (records ++ [length (heap w)])
      (mkWorld (heap w ++ [r]) (eos w) (events w)).
Proof.
  destruct line as [each|]; [|done].
  destruct each as [|each0 [|each1 [|]]]; try done.
  simpl. destruct (strconv_ParseInt each0) as [i|]; [|done].
  intros [= <-]. unfold bind at 1, alloc. unfold bind at 1, load. simpl.
  rewrite list_lookup_middle by done.
  unfold bind at 1, store. simpl.
  rewrite insert_app_r_alt by done. by rewrite Nat.sub_diag.
Qed.

Lemma getRecords_loop_bad line lines records (w : world B) :
  lineRecord line = None ->
  exists w', getRecords_loop (line :: lines) records w = Abort Fatal w' /\
             eos w' = eos w /\ events w' = events w.
Proof.
  destruct line as [each|]; [|by eexists].
  destruct each as [|each0 [|each1 [|]]]; try by eexists.
  simpl. unfold bind, alloc. simpl.
  destruct (strconv_ParseInt each0); [done|]. by eexists.
Qed.

Lemma getRecords_loop_spec lines records (w : world B) :
  match mapM lineRecord lines with
  | Some rs =>
      getRecords_loop lines records w
      = Done (records ++ seq (length (heap w)) (length lines))
          (mkWorld (heap w ++ rs) (eos w) (events w))
  | None =>
      exists w', getRecords_loop lines records w = Abort Fatal w' /\
                 eos w' = eos w /\ events w' = events w
  end.
Proof.
  revert records w. induction lines as [|line lines IH]; intros records w.
  { simpl. rewrite !app_nil_r. by destruct w. }
  assert (Hm : mapM lineRecord (line :: lines)
               = match lineRecord line with
                 | Some r => match mapM lineRecord lines with
                             | Some rs => Some (r :: rs)
                             | None => None
                             end
                 | None => None
                 end).
  { simpl. destruct (lineRecord line); [|done]. simpl.
    by destruct (mapM lineRecord lines). }
  rewrite Hm. destruct (lineRecord line) as [r|] eqn:Hline.
  2:{ by apply getRecords_loop_bad. }
  rewrite (getRecords_loop_step _ _ _ _ _ Hline).
  specialize (IH (records ++ [length (heap w)])
                (mkWorld (heap w ++ [r]) (eos w) (events w))).
  destruct (mapM lineRecord lines) as [rs|]; [|exact IH].
  rewrite IH. simpl. rewrite length_app, <- !app_assoc. simpl.
  by rewrite Nat.add_1_r.
Qed.

(** X1: the loader either ends in [log.Fatal], when the file cannot be read
    or some line is not two fields with a decimal timestamp, without a call
    to the store; or it returns one new record per line, in the order of
    the lines, with the trimmed identifier, the parsed date, size 0, no path,
    status [notNasty] and no versions, behind consecutive fresh pointers. *)
Theorem getRecords_all_lines_or_fatal (lines : list csvRead) (w : world B) :
  getRecords None w = Abort Fatal w /\
  match mapM lineRecord lines with
  | Some rs =>
      getRecords (Some lines) w
      = Done (seq (length (heap w)) (length lines))
          (mkWorld (heap w ++ rs) (eos w) (events w))
  | None =>
      exists w', getRecords (Some lines) w = Abort Fatal w' /\
                 eos w' = eos w /\ events w' = events w
  end.
Proof. split; [done|]. apply (getRecords_loop_spec lines []). Qed.

End LoaderFacts.

(** ** The filter *)

Section FilterEnds.
Context {B : Type} {client : EosClient B}.

Lemma metadataCall_framed h h' p e :
  framed sameButFile h h' -> metadataCall h' p e -> metadataCall h p e.
Proof.
  intros [Hlen Hfr] (r' & Hr' & ->).
  destruct (lookup_lt_is_Some_2 h p) as [r Hr].
  { rewrite <- Hlen. by eapply lookup_lt_Some. }
  destruct (Hfr p r Hr) as (r'' & Hr'' & Hsame).
  exists r. split; [done|]. f_equal.
  assert (r'' = r') as ->
    by (apply (inj Some); rewrite <- Hr''; exact Hr').
  apply Hsame.
Qed.

Lemma nominalAt_insert h p q r :
  nominalPath (File r) -> (p < length h)%nat ->
  nominalAt h q -> nominalAt (<[p:=r]> h) q.
Proof.
  intros Hr Hp (rq & Hrq & Hnom). destruct (decide (q = p)) as [->|Hne].
  - exists r. by rewrite list_lookup_insert_eq.
  - exists rq. by rewrite list_lookup_insert_ne.
Qed.

Lemma skipRecords_loop_ends records toret sk (w : world B) :
  allocated w records ->
  (forall p, p ∈ toret -> nominalAt (heap w) p) ->
  ends (skipRecords_loop records toret sk) w
    (fun res w' => exists sub calls,
       res.1 = toret ++ sub /\ sub `sublist_of` records /\
       (skippedTotal res.2 + length sub <= skippedTotal sk + length records)%nat /\
       events w' = events w ++ calls /\
       Forall2 (metadataCall (heap w)) records calls /\
       framed sameButFile (heap w) (heap w') /\
       forall p, p ∈ res.1 -> nominalAt (heap w') p)
    (fun _ _ => False).
Proof.
  revert toret sk w.
  induction records as [|p records IH]; intros toret sk w Hal Hnom.
  { apply ends_ret. exists [], []. rewrite !app_nil_r.
    split; [done|]. split; [done|]. split; [simpl; lia|]. split; [done|].
    split; [constructor|]. split; [apply framed_refl, _|done]. }
  apply Forall_cons in Hal as [Hp Hal].
  destruct (lookup_lt_is_Some_2 _ _ Hp) as [rv Hrv].
  simpl. eapply ends_bind, ends_load; [exact Hrv|].
  apply ends_bind, ends_GetFileInfoByFXID. intros b res.
  assert (Hskip : forall sk', (skippedTotal sk' <= S (skippedTotal sk))%nat ->
    ends (skipRecords_loop records toret sk')
      (mkWorld (heap w) b (events w ++ [EvGetFileInfo (FXID rv)]))
      (fun res w' => exists sub calls,
         res.1 = toret ++ sub /\ sub `sublist_of` p :: records /\
         (skippedTotal res.2 + length sub
            <= skippedTotal sk + length (p :: records))%nat /\
         events w' = events w ++ calls /\
         Forall2 (metadataCall (heap w)) (p :: records) calls /\
         framed sameButFile (heap w) (heap w') /\
         forall p, p ∈ res.1 -> nominalAt (heap w') p)
      (fun _ _ => False)).
  { intros sk' Hsk'. eapply ends_mono; [by apply IH| |done]. simpl.
    intros res' w' (sub & calls & Hres & Hsub & Hcount & Hev & Hcalls & Hfr & Hn).
    exists sub, (EvGetFileInfo (FXID rv) :: calls).
    split; [done|]. split; [by apply sublist_cons|]. split; [simpl; lia|].
    split; [by rewrite Hev, <- app_assoc|].
    split; [|done]. constructor; [by exists rv|done]. }
  destruct res as [err|fi]; [apply Hskip; lia|].
  repeat (match goal with |- context [if ?c then _ else _] => destruct c eqn:? end;
          [apply Hskip; unfold skippedTotal; simpl; lia|]).
  apply ends_bind, ends_store. simpl.
  assert (Hfr1 : framed sameButFile (heap w)
                   (<[p:=set_File rv (eosclient.File fi)]> (heap w))).
  { eapply framed_insert; [apply _|exact Hrv|done]. }
  eapply ends_mono; [apply IH| |done]; simpl.
  - eapply Forall_impl; [exact Hal|]. intros; heap_length.
  - intros q [Hq|Hq%list_elem_of_singleton]%elem_of_app.
    + by apply nominalAt_insert, Hnom.
    + subst q. eexists. by rewrite list_lookup_insert_eq.
  - intros res' w' (sub & calls & Hres & Hsub & Hcount & Hev & Hcalls & Hfr & Hn).
    exists (p :: sub), (EvGetFileInfo (FXID rv) :: calls).
    split; [by rewrite Hres, <- app_assoc|]. split; [by apply sublist_skip|].
    split; [simpl in *; lia|]. split; [by rewrite Hev, <- app_assoc|].
    split; [|split; [by eapply framed_trans; [apply _|..]|done]].
    constructor; [by exists rv|].
    eapply Forall2_impl; [exact Hcalls|]. intros q e.
    by apply metadataCall_framed.
Qed.


(** X3: the filter changes nothing of a record but its path, and every
    record it keeps has a path that contains none of [/proc/recycle],
    [sys.v] and [sys.a]. *)
Theorem skipRecords_keeps_nominal (records : list ptr) (w : world B) :
  allocated w records ->
  exists toret sk w',
    skipRecords records w = Done (toret, sk) w' /\
    framed sameButFile (heap w) (heap w') /\
    forall p, p ∈ toret -> nominalAt (heap w') p.
Proof.
  intros Hal.
  destruct (ends_Done _ _ _ (skipRecords_loop_ends records [] (mkSkipped 0 0 0) w Hal
              ltac:(by intros p Hp; inversion Hp)))
    as ([toret sk] & w' & Hrun & sub & calls & Hres & _ & _ & _ & _ & Hfr & Hnom).
  by exists toret, sk, w'.
Qed.

End FilterEnds.


Lemma skipRecords_keeps_nominal_witness :
  exists toret sk w',
    skipRecords [0%nat] (mkWorld [loadedRecord] storeRepairable [])
      = Done (toret, sk) w' /\
    framed sameButFile [loadedRecord] (heap w') /\
    forall p, p ∈ toret -> nominalAt (heap w') p.
Proof.
  apply (skipRecords_keeps_nominal [0%nat] (mkWorld [loadedRecord] storeRepairable [])).
  repeat constructor.
Defined.

(** ** The classifier *)

Section ClassifierEnds.
Context {B : Type} {client : EosClient B}.

Lemma getRecordDistribution_loop_ends records chunked nasty (w : world B) :
  allocated w records ->
  (forall p, p ∈ chunked -> chunkedAt (heap w) p) ->
  (forall p, p ∈ nasty -> notChunkAt (heap w) p) ->
  ends (getRecordDistribution_loop records chunked nasty) w
    (fun res w' => exists c n,
       res = (chunked ++ c, nasty ++ n) /\
       c `sublist_of` records /\ n `sublist_of` records /\
       c ++ n ≡ₚ records /\
       eos w' = eos w /\ events w' = events w /\
       framed sameButClass (heap w) (heap w') /\
       (forall p, p ∈ res.1 -> chunkedAt (heap w') p) /\
       (forall p, p ∈ res.2 -> notChunkAt (heap w') p))
    (fun _ _ => False).
Proof.
  revert chunked nasty w.
  induction records as [|p records IH]; intros chunked nasty w Hal Hc Hn.
  { apply ends_ret. exists [], []. rewrite !app_nil_r.
    split; [done|]. split; [done|]. split; [done|]. split; [done|].
    split; [done|]. split; [done|]. split; [apply framed_refl, _|done]. }
  apply Forall_cons in Hal as [Hp Hal].
  destruct (lookup_lt_is_Some_2 _ _ Hp) as [rv Hrv].
  simpl. eapply ends_bind, ends_load; [exact Hrv|].
  destruct (isChunked (Size rv)) eqn:Hsize.
  - apply ends_bind, ends_store. simpl.
    assert (Hfr1 : framed sameButClass (heap w) (<[p:=set_Handled rv true]> (heap w)))
      by (eapply framed_insert; [apply _|exact Hrv|done]).
    eapply ends_mono; [apply IH| |done]; simpl.
    + eapply Forall_impl; [exact Hal|]. intros; heap_length.
    + intros q Hq. destruct (decide (q = p)) as [->|Hne].
      * eexists. by rewrite list_lookup_insert_eq.
      * apply elem_of_app in Hq as [Hq|Hq%list_elem_of_singleton]; [|done].
        destruct (Hc q Hq) as (r & Hr & ?). exists r.
        by rewrite list_lookup_insert_ne.
    + intros q Hq. destruct (Hn q Hq) as (r & Hr & Hh & Hs & Hst).
      destruct (decide (q = p)) as [->|Hne].
      { rewrite (lookup_agree _ _ _ _ Hr Hrv) in Hs. congruence. }
      exists r. by rewrite list_lookup_insert_ne.
    + intros res' w' (c & n & -> & Hsc & Hsn & Hperm & Heos & Hev & Hfr & Hc' & Hn').
      exists (p :: c), n. split; [by rewrite <- app_assoc|].
      split; [by apply sublist_skip|]. split; [by apply sublist_cons|].
      split; [by rewrite <- Hperm|]. split; [done|]. split; [done|].
      split; [by eapply framed_trans; [apply _|..]|done].
  - apply ends_bind, ends_store. simpl.
    assert (Hfr1 : framed sameButClass (heap w)
              (<[p:=set_Handled (set_Status rv nastyNotChunk) true]> (heap w)))
      by (eapply framed_insert; [apply _|exact Hrv|done]).
    eapply ends_mono; [apply IH| |done]; simpl.
    + eapply Forall_impl; [exact Hal|]. intros; heap_length.
    + intros q Hq. destruct (Hc q Hq) as (r & Hr & Hh & Hs).
      destruct (decide (q = p)) as [->|Hne].
      { rewrite (lookup_agree _ _ _ _ Hr Hrv) in Hs. congruence. }
      exists r. by rewrite list_lookup_insert_ne.
    + intros q Hq. destruct (decide (q = p)) as [->|Hne].
      * eexists. by rewrite list_lookup_insert_eq.
      * apply elem_of_app in Hq as [Hq|Hq%list_elem_of_singleton]; [|done].
        destruct (Hn q Hq) as (r & Hr & ?). exists r.
        by rewrite list_lookup_insert_ne.
    + intros res' w' (c & n & -> & Hsc & Hsn & Hperm & Heos & Hev & Hfr & Hc' & Hn').
      exists c, (p :: n). split; [by rewrite <- app_assoc|].
      split; [by apply sublist_cons|]. split; [by apply sublist_skip|].
      split; [by rewrite <- Hperm, Permutation_middle|].
      split; [done|]. split; [done|].
      split; [by eapply framed_trans; [apply _|..]|done].
Qed.

(** X4: on records that are all on the heap the classifier always returns,
    without a call to the store.  Every record lands in exactly one of the
    two lists, each list in input order; the records of [chunked] are
    examined and have a chunk-aligned size; those of [nasty] are examined,
    have a size that is not chunk-aligned and carry status
    [nastyNotChunk]; and nothing of a record changes but [Handled] and
    [Status]. *)
Theorem getRecordDistribution_partitions (records : list ptr) (w : world B) :
  allocated w records ->
  exists chunked nasty w',
    getRecordDistribution records w = Done (chunked, nasty) w' /\
    chunked ++ nasty ≡ₚ records /\
    chunked `sublist_of` records /\ nasty `sublist_of` records /\
    eos w' = eos w /\ events w' = events w /\
    framed sameButClass (heap w) (heap w') /\
    (forall p, p ∈ chunked -> chunkedAt (heap w') p) /\
    (forall p, p ∈ nasty -> notChunkAt (heap w') p).
Proof.
  intros Hal.
  destruct (ends_Done _ _ _ (getRecordDistribution_loop_ends records [] [] w Hal
              ltac:(by intros p Hp; inversion Hp)
              ltac:(by intros p Hp; inversion Hp)))
    as ([chunked nasty] & w' & Hrun & c & n & [= -> ->] & H).
  destruct H as (Hc & Hn & Hperm & Heos & Hev & Hfr & Hca & Hna).
  exists c, n, w'. by repeat (split; [done|]).
Qed.

End ClassifierEnds.

Lemma getRecordDistribution_partitions_witness :
  exists chunked nasty w',
    getRecordDistribution [0%nat] (mkWorld [filteredRecord] storeRepairable [])
      = Done (chunked, nasty) w' /\
    chunked ++ nasty ≡ₚ [0%nat] /\
    chunked `sublist_of` [0%nat] /\ nasty `sublist_of` [0%nat] /\
    eos w' = storeRepairable /\ events w' = [] /\
    framed sameButClass [filteredRecord] (heap w') /\
    (forall p, p ∈ chunked -> chunkedAt (heap w') p) /\
    (forall p, p ∈ nasty -> notChunkAt (heap w') p).
Proof.
  apply (getRecordDistribution_partitions [0%nat]
           (mkWorld [filteredRecord] storeRepairable [])).
  repeat constructor.
Defined.

(** ** The resolver over a list of records *)

Section ResolverEnds.
Context {B : Type} {client : EosClient B} {rt : GoRuntime}.

Lemma hasValidVersion_insert h p q rv r1 :
  h !! p = Some rv ->
  (is_Some (ValidVersion rv) -> is_Some (ValidVersion r1)) ->
  hasValidVersion h q -> hasValidVersion (<[p:=r1]> h) q.
Proof.
  intros Hrv Hkeep (r & v & Hr & Hv).
  destruct (decide (q = p)) as [->|Hne].
  - rewrite (lookup_agree _ _ _ _ Hr Hrv) in Hv.
    destruct Hkeep as [v1 Hv1]; [by eexists|].
    exists r1, v1. split; [|done].
    apply list_lookup_insert_eq. by eapply lookup_lt_Some.
  - exists r, v. by rewrite list_lookup_insert_ne.
Qed.

Lemma analyze_loop_ends chunked newchunked nasty (w : world B) :
  allocated w chunked ->
  (forall p, p ∈ newchunked -> hasValidVersion (heap w) p) ->
  ends (analyze_loop chunked newchunked nasty) w
    (fun res w' => exists c n,
       res = (newchunked ++ c, nasty ++ n) /\
       c `sublist_of` chunked /\ n `sublist_of` chunked /\
       c ++ n ≡ₚ chunked /\
       framed sameButResolution (heap w) (heap w') /\
       forall p, p ∈ res.1 -> hasValidVersion (heap w') p)
    (fun k w' => k = Fatal /\ framed sameButResolution (heap w) (heap w')).
Proof.
  revert newchunked nasty w.
  induction chunked as [|p chunked IH]; intros newchunked nasty w Hal Hnc.
  { apply ends_ret. exists [], []. rewrite !app_nil_r.
    split; [done|]. split; [done|]. split; [done|]. split; [done|].
    split; [apply framed_refl, _|done]. }
  apply Forall_cons in Hal as [Hp Hal].
  destruct (lookup_lt_is_Some_2 _ _ Hp) as [rv Hrv].
  assert (Hnext : forall (valid : bool) r1 h (b' : B) es,
    (forall x, <[p:=x]> h = <[p:=x]> (heap w)) ->
    sameButResolution rv r1 ->
    (valid = true -> is_Some (ValidVersion r1)) ->
    ends (bind (store p r1) (fun _ =>
            analyze_loop chunked
              (if valid then newchunked ++ [p] else newchunked)
              (if valid then nasty else nasty ++ [p])))
      (mkWorld h b' es)
      (fun res w' => exists c n,
         res = (newchunked ++ c, nasty ++ n) /\
         c `sublist_of` p :: chunked /\ n `sublist_of` p :: chunked /\
         c ++ n ≡ₚ p :: chunked /\
         framed sameButResolution (heap w) (heap w') /\
         forall p, p ∈ res.1 -> hasValidVersion (heap w') p)
      (fun k w' => k = Fatal /\ framed sameButResolution (heap w) (heap w'))).
  { intros valid r1 h b' es Hh Hsame Hvalid.
    apply ends_bind, ends_store. simpl. rewrite Hh.
    assert (Hfr1 : framed sameButResolution (heap w) (<[p:=r1]> (heap w)))
      by (eapply framed_insert; [apply _|exact Hrv|done]).
    eapply ends_mono; [apply IH| |]; simpl.
    - eapply Forall_impl; [exact Hal|]. intros; heap_length.
    - intros q Hq.
      assert (Hq' : q ∈ newchunked \/ (valid = true /\ q = p)).
      { destruct valid; [|by left].
        apply elem_of_app in Hq as [Hq|Hq%list_elem_of_singleton]; auto. }
      destruct Hq' as [Hq'|[Hv ->]].
      + eapply hasValidVersion_insert; [exact Hrv|apply Hsame|by apply Hnc].
      + destruct (Hvalid Hv) as [v Hv1]. exists r1, v. split; [|done].
        by apply list_lookup_insert_eq.
    - intros res' w' (c & n & -> & Hsc & Hsn & Hperm & Hfr & Hval).
      exists (if valid then p :: c else c), (if valid then n else p :: n).
      destruct valid.
      + split; [by rewrite <- app_assoc|]. split; [by apply sublist_skip|].
        split; [by apply sublist_cons|]. split; [by rewrite <- Hperm|].
        split; [by eapply framed_trans; [apply _|..]|done].
      + split; [by rewrite <- app_assoc|]. split; [by apply sublist_cons|].
        split; [by apply sublist_skip|].
        split; [by rewrite <- Hperm, Permutation_middle|].
        split; [by eapply framed_trans; [apply _|..]|done].
    - intros k w' [-> Hfr]. split; [done|].
      by eapply framed_trans; [apply _|..]. }
  simpl. eapply ends_bind, ends_load; [exact Hrv|].
  apply ends_bind, ends_ListVersions. intros b res.
  destruct res as [err|versions].
  { apply ends_fatal. split; [done|]. apply framed_refl, _. }
  eapply ends_bind, ends_assignVersions; [exact Hrv|]. simpl.
  set (rv1 := set_Versions rv versions).
  assert (Hh1 : forall x, <[p:=x]> (<[p:=rv1]> (heap w)) = <[p:=x]> (heap w))
    by (intros; apply list_insert_insert_eq).
  eapply ends_bind, ends_load; [by apply list_lookup_insert_eq|]. simpl.
  destruct versions as [|v vs].
  { apply (Hnext false); [done|done|done]. }
  pose proof (haveValidVersion_facts rv1) as Hfacts. simpl in Hfacts.
  destruct (haveValidVersion rv1) as [valid rv2]. simpl in Hfacts.
  destruct Hfacts as (_ & Hf1 & Hf2 & Hf3 & Hf4 & Hf5 & _ & Hfalse & Htrue).
  destruct valid.
  { apply (Hnext true); [done| |].
    - destruct (Htrue eq_refl) as (_ & v' & Hv' & _).
      repeat split; try done; intros _; by eexists.
    - intros _. destruct (Htrue eq_refl) as (_ & v' & Hv' & _). by eexists. }
  apply ends_bind, ends_store. simpl.
  eapply ends_bind, ends_load.
  { apply list_lookup_insert_eq. by rewrite length_insert. }
  apply (Hnext false).
  - intros x. by rewrite list_insert_insert_eq.
  - destruct (Hfalse eq_refl) as [_ Hvv].
    repeat split; try done; simpl; by rewrite Hvv.
  - done.
Qed.

(** X7: on records that are all on the heap [analyze] returns or ends in
    [log.Fatal]; it never panics.  When it returns, the records it had in
    [chunked] are split between the returned repairable list and the end of
    the returned nasty list, which keeps the nasty records it was given in
    front, each part in input order; every repairable record has a valid
    version; and nothing of a record changes but [Status], [Versions] and
    [ValidVersion], a valid version never being taken away. *)
Theorem analyze_partitions (chunked nasty : list ptr) (w : world B) :
  allocated w chunked ->
  ends (analyze chunked nasty) w
    (fun res w' => exists added,
       res.2 = nasty ++ added /\
       res.1 `sublist_of` chunked /\ added `sublist_of` chunked /\
       res.1 ++ added ≡ₚ chunked /\
       framed sameButResolution (heap w) (heap w') /\
       forall p, p ∈ res.1 -> hasValidVersion (heap w') p)
    (fun k w' => k = Fatal /\ framed sameButResolution (heap w) (heap w')).
Proof.
  intros Hal. unfold analyze.
  eapply ends_mono; [apply analyze_loop_ends; [done|]| |done].
  - intros p Hp. inversion Hp.
  - intros res w' (c & n & -> & Hc & Hn & Hperm & Hfr & Hval). by exists n.
Qed.

Lemma analyzeNasty_ends nasty (w : world B) :
  allocated w nasty ->
  ends (analyzeNasty nasty) w
    (fun _ w' => framed sameButListing (heap w) (heap w'))
    (fun k w' => k = Fatal /\ framed sameButListing (heap w) (heap w')).
Proof.
  revert w. induction nasty as [|p nasty IH]; intros w Hal.
  { apply ends_ret, framed_refl, _. }
  apply Forall_cons in Hal as [Hp Hal].
  destruct (lookup_lt_is_Some_2 _ _ Hp) as [rv Hrv].
  simpl. eapply ends_bind, ends_load; [exact Hrv|].
  apply ends_bind, ends_store. simpl.
  assert (Hfr1 : framed sameButListing (heap w)
                   (<[p:=set_Handled rv true]> (heap w)))
    by (eapply framed_insert; [apply _|exact Hrv|done]).
  eapply ends_bind, ends_load; [by apply list_lookup_insert_eq|]. simpl.
  apply ends_bind, ends_ListVersions. intros b res.
  destruct res as [err|versions]; [by apply ends_fatal|].
  eapply ends_bind, ends_assignVersions; [by apply list_lookup_insert_eq|]. simpl.
  rewrite list_insert_insert_eq.
  assert (Hfr2 : framed sameButListing (heap w)
            (<[p:=set_Versions (set_Handled rv true) versions]> (heap w)))
    by (eapply framed_insert; [apply _|exact Hrv|done]).
  eapply ends_mono; [apply IH| |]; simpl.
  - eapply Forall_impl; [exact Hal|]. intros; heap_length.
  - intros ? w' Hfr. by eapply framed_trans; [apply _|..].
  - intros k w' [-> Hfr]. split; [done|]. by eapply framed_trans; [apply _|..].
Qed.

(** X9: on records that are all on the heap [analyzeNasty] returns or ends
    in [log.Fatal], and however it ends it has changed nothing of any
    record but [Handled] and [Versions]: the statuses and the valid
    versions are those [analyze] left. *)
Theorem analyzeNasty_keeps_classification (nasty : list ptr) (w : world B) :
  allocated w nasty ->
  ends (analyzeNasty nasty) w
    (fun _ w' => framed sameButListing (heap w) (heap w'))
    (fun k w' => k = Fatal /\ framed sameButListing (heap w) (heap w')).
Proof. apply analyzeNasty_ends. Qed.

Lemma rollback_ends repair chunked (w : world B) :
  (forall p, p ∈ chunked -> hasValidVersion (heap w) p) ->
  ends (rollback repair chunked) w
    (fun _ w' => heap w' = heap w) (fun _ _ => False).
Proof.
  revert w. induction chunked as [|p chunked IH]; intros w Hval; [done|].
  destruct (Hval p) as (rv & v & Hrv & Hv); [by left|].
  simpl. eapply ends_bind, ends_load; [exact Hrv|]. rewrite Hv.
  apply ends_bind. destruct repair.
  - apply ends_bind, ends_RollbackToVersion. intros b res. apply ends_ret.
    eapply ends_mono; [apply IH| |done]; simpl; [|done].
    intros q Hq. apply Hval. by right.
  - apply ends_ret. apply IH. intros q Hq. apply Hval. by right.
Qed.

End ResolverEnds.

(** ** The stages together *)

Section PipelineEnds.
Context {B : Type} {client : EosClient B} {rt : GoRuntime}.

Lemma allocated_sublist (w : world B) sub l :
  sub `sublist_of` l -> allocated w l -> allocated w sub.
Proof.
  unfold allocated. rewrite !Forall_forall. intros Hsub Hl p Hp.
  apply Hl. by eapply elem_of_sublist.
Qed.

Lemma allocated_perm (w : world B) l k :
  l ≡ₚ k -> allocated w k -> allocated w l.
Proof. unfold allocated. by intros ->. Qed.

Lemma hasValidVersion_framed h h' p :
  framed sameButListing h h' -> hasValidVersion h p -> hasValidVersion h' p.
Proof.
  intros [_ Hfr] (r & v & Hr & Hv).
  destruct (Hfr p r Hr) as (r' & Hr' & Hsame).
  exists r', v. split; [done|].
  destruct Hsame as (_ & _ & _ & _ & _ & ->). done.
Qed.

Lemma getRecords_ends file (w : world B) :
  ends (getRecords file) w
    (fun rs w' => rs = seq (length (heap w)) (length rs) /\
       length (heap w') = (length (heap w) + length rs)%nat /\
       eos w' = eos w /\ events w' = events w)
    (fun k w' => k = Fatal /\ eos w' = eos w /\ events w' = events w).
Proof.
  destruct file as [lines|]; [|done]. unfold ends. simpl.
  pose proof (getRecords_loop_spec lines [] w) as Hspec.
  destruct (mapM lineRecord lines) as [rs|] eqn:Hm.
  - rewrite Hspec. simpl. rewrite length_seq, length_app.
    by rewrite (length_mapM _ _ _ Hm).
  - destruct Hspec as (w' & -> & ? & ?). done.
Qed.

Lemma resolve_ends file (b : B) :
  ends (resolve file) (start b)
    (fun st w' =>
       NoDup (st_records st) /\
       st_newRecords st `sublist_of` st_records st /\
       (length (st_newRecords st) + skippedTotal (st_sk st)
          <= length (st_records st))%nat /\
       st_chunked0 st ++ st_nasty0 st ≡ₚ st_newRecords st /\
       st_chunked st ++ st_nasty st ≡ₚ st_newRecords st /\
       allocated w' (st_newRecords st) /\
       forall p, p ∈ st_chunked st -> hasValidVersion (heap w') p)
    (fun k _ => k = Fatal).
Proof.
  unfold resolve. apply ends_bind.
  eapply ends_mono; [apply getRecords_ends| |by intros k w' [-> _]].
  intros records w1 (Hrs & Hlen1 & _). simpl in Hrs, Hlen1.
  assert (Hal1 : allocated w1 records).
  { rewrite Hrs. apply Forall_forall. intros p Hp%elem_of_seq. lia. }
  apply ends_bind.
  eapply ends_mono; [apply skipRecords_loop_ends; [exact Hal1|]| |done].
  { intros p Hp. inversion Hp. }
  intros [toret sk] w2 (sub & calls & Hres & Hsub & Hcount & _ & _ & Hfr2 & _).
  simpl in Hres. subst toret. simpl.
  assert (Hal2 : allocated w2 sub).
  { eapply allocated_sublist; [exact Hsub|]. by eapply framed_allocated. }
  apply ends_bind.
  eapply ends_mono; [apply getRecordDistribution_loop_ends; [exact Hal2|..]| |done].
  { intros p Hp. inversion Hp. }
  { intros p Hp. inversion Hp. }
  intros cn w3 (c & n & -> & Hc & Hn & Hperm3 & _ & _ & Hfr3 & _). simpl.
  assert (Hal3 : allocated w3 sub) by by eapply framed_allocated.
  apply ends_bind.
  eapply ends_mono; [apply analyze_loop_ends| |by intros k w' [-> _]].
  { eapply allocated_sublist; [exact Hc|done]. }
  { intros p Hp. inversion Hp. }
  intros cn' w4 (c' & n' & -> & Hc' & Hn' & Hperm4 & Hfr4 & Hval).
  apply ends_ret. simpl.
  split; [rewrite Hrs; apply NoDup_seq|]. split; [done|].
  split; [unfold skippedTotal in *; simpl in Hcount; lia|].
  split; [done|]. split; [|split; [by eapply framed_allocated|done]].
  rewrite <- Hperm3, <- Hperm4. solve_Permutation.
Qed.

(** X12: when resolution is over, the records the loader made are distinct;
    the records that passed the filter are some of them, in order, and
    together with the skip counters they do not exceed the number of loaded
    records; every record that passed the filter is in exactly one of
    [chunked] and [nasty], both as classified and as resolved; and every
    record of the resolved [chunked] has a valid version.  Up to there the
    run can only be cut short by [log.Fatal]. *)
Theorem resolve_conserves_records (file : option (list csvRead)) (b : B) :
  ends (resolve file) (start b)
    (fun st w' =>
       NoDup (st_records st) /\
       st_newRecords st `sublist_of` st_records st /\
       (length (st_newRecords st) + skippedTotal (st_sk st)
          <= length (st_records st))%nat /\
       st_chunked0 st ++ st_nasty0 st ≡ₚ st_newRecords st /\
       st_chunked st ++ st_nasty st ≡ₚ st_newRecords st /\
       forall p, p ∈ st_chunked st -> hasValidVersion (heap w') p)
    (fun k _ => k = Fatal).
Proof.
  eapply ends_mono; [apply resolve_ends| |done]. simpl.
  intros st w' (? & ? & ? & ? & ? & _ & ?). done.
Qed.

(** X8: a run of [main] from a fresh process returns or ends in
    [log.Fatal]; it never panics: no stage follows a pointer that holds no
    record, and [rollback] only meets records with a valid version. *)
Theorem main_never_panics (repair : bool) (file : option (list csvRead)) (b : B) :
  ends (main repair file) (start b) (fun _ _ => True) (fun k _ => k = Fatal).
Proof.
  unfold main. apply ends_bind.
  eapply ends_mono; [apply resolve_ends| |done]. simpl.
  intros st w1 (_ & _ & _ & _ & Hperm & Hal & Hval).
  apply ends_bind.
  eapply ends_mono; [apply analyzeNasty_ends| |by intros k w' [-> _]].
  { eapply allocated_sublist; [apply sublist_inserts_l; reflexivity|].
    eapply allocated_perm; [exact Hperm|exact Hal]. }
  intros ? w2 Hfr. simpl.
  eapply ends_mono; [apply rollback_ends| |done]; [|done].
  intros p Hp. eapply hasValidVersion_framed; [exact Hfr|by apply Hval].
Qed.

End PipelineEnds.

(** ** The report *)

Lemma countNasty_loop_absent h nasty s c :
  Forall (fun r => Status r <> s) h -> countNasty_loop h nasty s c = c.
Proof.
  intros Hh. revert c. induction nasty as [|p nasty IH]; intros c; [done|].
  simpl. destruct (h !! p) as [rv|] eqn:Hrv; [|apply IH].
  pose proof (Forall_lookup_1 _ _ _ _ Hh Hrv) as Hne.
  case_decide; [done|apply IH].
Qed.

Lemma uint32_incr_add c n :
  (uint32_incr c + n) mod 2 ^ 32 = (c + (1 + n)) mod 2 ^ 32.
Proof.
  unfold uint32_incr. rewrite Z.add_mod_idemp_l by lia. f_equal. lia.
Qed.

Lemma countNasty_loop_eq h nasty s c :
  (countNasty_loop h nasty s c) mod 2 ^ 32
  = (c + Z.of_nat (length (filter (fun p => Status <$> h !! p = Some s) nasty)))
      mod 2 ^ 32 /\
  (0 <= c < 2 ^ 32 -> 0 <= countNasty_loop h nasty s c < 2 ^ 32).
Proof.
  revert c. induction nasty as [|p nasty IH]; intros c.
  { simpl. split; [f_equal; lia|done]. }
  simpl. rewrite filter_cons.
  assert (Hin : 0 <= uint32_incr c < 2 ^ 32)
    by (apply Z.mod_pos_bound; lia).
  destruct (h !! p) as [rv|] eqn:Hrv; simpl.
  - destruct (decide (Status rv = s)) as [->|Hne].
    + rewrite decide_True by done. destruct (IH (uint32_incr c)) as [-> Hb].
      split; [|by auto]. rewrite uint32_incr_add. f_equal. simpl length. lia.
    + rewrite decide_False by congruence. apply IH.
  - apply IH.
Qed.

Lemma count_loop_eq h records c :
  (count_loop h records c) mod 2 ^ 32
  = (c + Z.of_nat (length (filter (fun p => is_Some (h !! p)) records)))
      mod 2 ^ 32 /\
  (0 <= c < 2 ^ 32 -> 0 <= count_loop h records c < 2 ^ 32).
Proof.
  revert c. induction records as [|p records IH]; intros c.
  { simpl. split; [f_equal; lia|done]. }
  simpl. rewrite filter_cons.
  assert (Hin : 0 <= uint32_incr c < 2 ^ 32)
    by (apply Z.mod_pos_bound; lia).
  destruct (h !! p) as [rv|] eqn:Hrv.
  - rewrite decide_True by done. destruct (IH (uint32_incr c)) as [-> Hb].
    split; [|by auto]. rewrite uint32_incr_add. f_equal. simpl length. lia.
  - rewrite decide_False by (by intros [? ?]). apply IH.
Qed.

(** X14: [countNasty] reports the number of records of the list that are on
    the heap with the given status, and [count] the number of records of the
    list that are on the heap, each reduced modulo 2^32, the range of their
    [uint32] counters. *)
Theorem counters_count (h : list record) (records : list ptr) (s : status) :
  countNasty h records s
  = Z.of_nat (length (filter (fun p => Status <$> h !! p = Some s) records))
      mod 2 ^ 32 /\
  count h records
  = Z.of_nat (length (filter (fun p => is_Some (h !! p)) records)) mod 2 ^ 32.
Proof.
  unfold countNasty, count. split.
  - destruct (countNasty_loop_eq h records s 0) as [Heq Hb].
    rewrite <- (Z.mod_small (countNasty_loop h records s 0) (2 ^ 32)) by (apply Hb; lia).
    rewrite Heq. f_equal.
  - destruct (count_loop_eq h records 0) as [Heq Hb].
    rewrite <- (Z.mod_small (count_loop h records 0) (2 ^ 32)) by (apply Hb; lia).
    rewrite Heq. f_equal.
Qed.

Section ReportFacts.
Context {B : Type} {client : EosClient B} {rt : GoRuntime}.

(** X11: in every run the counts [main] prints for [nastyNotChunk] and for
    [nastyNotExistsAnymore] are 0, whatever the input and the store. *)
Theorem countNasty_dead_categories (file : option (list csvRead)) (b : B) :
  post (resolve file) (start b)
    (fun st w' =>
       countNasty (heap w') (st_nasty st) nastyNotChunk = 0 /\
       countNasty (heap w') (st_nasty st) nastyNotExistsAnymore = 0)
    (fun _ => True).
Proof.
  eapply post_mono; [apply resolve_size; constructor| |done]. simpl.
  intros st w' ([Hw' _] & _).
  split; apply countNasty_loop_absent;
    (eapply Forall_impl; [exact Hw'|]); intros r [_ Hst]; status_ok.
Qed.

(** X13: in every run of [main], however it ends, no record is one that
    [String] would print with status [GOOD]. *)
Theorem record_String_never_good (repair : bool) (file : option (list csvRead)) (b : B) :
  post (main repair file) (start b)
    (fun _ w' => Forall (fun r => record_String_status r <> "GOOD") (heap w'))
    (fun w' => Forall (fun r => record_String_status r <> "GOOD") (heap w')).
Proof.
  assert (Hs : forall h, Forall (fun r => writtenStatus (Status r)) h ->
            Forall (fun r => record_String_status r <> "GOOD") h).
  { intros h Hh. eapply Forall_impl; [exact Hh|]. intros r Hr.
    unfold record_String_status. destruct Hr as [-> | [-> | ->]]; done. }
  eapply post_mono; [apply main_statuses| |]; simpl; eauto.
Qed.

End ReportFacts.

(** ** The properties above at the sample record *)

Lemma analyze_partitions_witness :
  ends (analyze (rt:=go118) [0%nat] [])
    (mkWorld [classifiedRecord] storeRepairable [])
    (fun res w' => exists added,
       res.2 = [] ++ added /\
       res.1 `sublist_of` [0%nat] /\ added `sublist_of` [0%nat] /\
       res.1 ++ added ≡ₚ [0%nat] /\
       framed sameButResolution [classifiedRecord] (heap w') /\
       forall p, p ∈ res.1 -> hasValidVersion (heap w') p)
    (fun k w' => k = Fatal /\ framed sameButResolution [classifiedRecord] (heap w')).
Proof.
  apply (analyze_partitions (rt:=go118) [0%nat] []
           (mkWorld [classifiedRecord] storeRepairable [])).
  repeat constructor.
Defined.

Lemma analyzeNasty_keeps_classification_witness :
  ends (analyzeNasty [0%nat])
    (mkWorld [classifiedRecord] storeNoVersions [])
    (fun _ w' => framed sameButListing [classifiedRecord] (heap w'))
    (fun k w' => k = Fatal /\ framed sameButListing [classifiedRecord] (heap w')).
Proof.
  apply (analyzeNasty_keeps_classification [0%nat]
           (mkWorld [classifiedRecord] storeNoVersions [])).
  repeat constructor.
Defined.

(** ** The calls of the resolver *)

Section ResolverCalls.
Context {B : Type} {client : EosClient B} {rt : GoRuntime}.

(** One turn of the loop of [analyzeNasty], on a record that is on the
    heap and whose listing the backend answers. *)
Lemma analyzeNasty_step p rest (w : world B) r b versions :
  heap w !! p = Some r ->
  ListVersions (eos w) (File r) = (b, inr versions) ->
  analyzeNasty (p :: rest) w =
  analyzeNasty rest
    (mkWorld (<[p:=set_Versions (set_Handled r true) versions]> (heap w)) b
       (events w ++ [EvListVersions (File r); EvSetVersions p])).
Proof.
  intros Hr Hlist.
  pose proof (lookup_lt_Some _ _ _ Hr) as Hp.
  simpl. unfold bind at 1, load. rewrite Hr.
  unfold bind at 1, store. simpl.
  unfold bind at 1. simpl. rewrite list_lookup_insert_eq by done. simpl.
  unfold bind at 1, callListVersions. simpl. rewrite Hlist.
  unfold bind at 1, assignVersions, bind at 1, load. simpl.
  rewrite list_lookup_insert_eq by done.
  unfold bind at 1, store, emit. simpl.
  by rewrite list_insert_insert_eq, <- app_assoc.
Qed.

(** The whole loop of [analyzeNasty] against the answers of the backend. *)
Lemma analyzeNasty_answers nasty (w : world B) paths answers :
  pathsAt (heap w) nasty = Some paths ->
  listings (eos w) paths = Some answers ->
  exists w',
    analyzeNasty nasty w = Done tt w' /\
    (forall q, q ∉ nasty -> heap w' !! q = heap w !! q) /\
    File <$> heap w' = File <$> heap w /\
    events w' = events w ++ listingEvents paths nasty /\
    eos w' = storeAfter (eos w) (listingEvents paths nasty) /\
    forall i p versions,
      lastAt nasty i p -> answers !! i = Some versions ->
      exists r, heap w' !! p = Some r /\ Versions r = versions /\ Handled r = true.
Proof.
  revert w paths answers.
  induction nasty as [|p nasty IH]; intros w paths answers.
  { intros [= <-] [= <-]. exists w. split; [done|]. split; [done|].
    split; [done|]. split; [by rewrite app_nil_r|]. split; [done|].
    by intros i p versions [? _]. }
  intros Hpaths0 Hanswers0. simpl in Hpaths0.
  destruct (heap w !! p) as [r|] eqn:Hr; [|done].
  destruct (pathsAt (heap w) nasty) as [paths'|] eqn:Hpaths; [|done].
  injection Hpaths0 as <-. simpl in Hanswers0.
  destruct (ListVersions (eos w) (File r)) as [b [err|versions]] eqn:Hlist; [done|].
  destruct (listings b paths') as [answers'|] eqn:Hanswers; [|done].
  injection Hanswers0 as <-.
  pose proof (analyzeNasty_step p nasty w r b versions Hr Hlist) as Hstep.
  pose proof (lookup_lt_Some _ _ _ Hr) as Hp.
  set (w1 := mkWorld (<[p:=set_Versions (set_Handled r true) versions]> (heap w)) b
               (events w ++ [EvListVersions (File r); EvSetVersions p])) in *.
  assert (Hfiles1 : File <$> heap w1 = File <$> heap w)
    by (by apply (files_insert _ _ r)).
  destruct (IH w1 paths' answers')
    as (w' & Hrun & Hframe & Hfiles & Hev & Heos & Hall).
  { rewrite <- Hpaths. by apply pathsAt_files. }
  { done. }
  exists w'. split; [by rewrite Hstep|]. split; [|split; [|split; [|split]]].
  - intros q Hq. apply not_elem_of_cons in Hq as [Hne Hq].
    rewrite (Hframe q Hq). simpl. by apply list_lookup_insert_ne.
  - by rewrite Hfiles.
  - rewrite Hev. simpl. unfold listingEvents. simpl. by rewrite <- app_assoc.
  - rewrite Heos. unfold storeAfter, listingEvents. simpl. by rewrite Hlist.
  - intros [|i] q vs Hlast Hvs.
    + destruct Hlast as [[= <-] ?]. injection Hvs as <-.
      exists (set_Versions (set_Handled r true) versions). split; [|done].
      rewrite (Hframe p); [|by apply lastAt_head].
      simpl. by apply list_lookup_insert_eq.
    + apply (Hall i q vs); [by eapply lastAt_tail|done].
Qed.

(** X15: when every record of [chunked] is on the heap and the backend
    answers the listing of each of their paths, [analyze] returns having
    listed the versions of every record of [chunked] exactly once, in order
    and by the record's path, and having stored each answer before the next
    listing.  It has made no other call: the store is the one the backend
    leaves after these listings.  The paths are untouched, and the list each
    record holds at the end is the answer to its last listing, newest
    first. *)
Theorem analyze_lists_each_record_once (chunked nasty : list ptr) (w : world B)
    (paths : list string) (answers : list (list FileInfo)) :
  pathsAt (heap w) chunked = Some paths ->
  listings (eos w) paths = Some answers ->
  exists res w',
    analyze chunked nasty w = Done res w' /\
    File <$> heap w' = File <$> heap w /\
    events w' = events w ++ listingEvents paths chunked /\
    eos w' = storeAfter (eos w) (listingEvents paths chunked) /\
    forall i p versions,
      lastAt chunked i p -> answers !! i = Some versions ->
      exists r, heap w' !! p = Some r /\ Versions r = sortVersions versions.
Proof.
  intros Hpaths Hanswers.
  destruct (analyze_loop_answers chunked [] nasty w paths answers Hpaths Hanswers)
    as (res & w' & Hrun & _ & Hfiles & Hev & Heos & Hall).
  exists res, w'. repeat (split; [done|]).
  intros i p versions Hlast Hvs.
  destruct (Hall i p versions Hlast Hvs) as (r & Hr & Hversions & _).
  by exists r.
Qed.

(** X16: when every record of [nasty] is on the heap and the backend
    answers the listing of each of their paths, [analyzeNasty] returns
    having listed the versions of every record of [nasty] exactly once, in
    order and by the record's path, and having stored each answer before the
    next listing.  It has made no other call: the store is the one the
    backend leaves after these listings.  The paths are untouched, and each
    record is marked handled and holds at the end the answer to its last
    listing, as the backend gave it. *)
Theorem analyzeNasty_lists_each_record_once (nasty : list ptr) (w : world B)
    (paths : list string) (answers : list (list FileInfo)) :
  pathsAt (heap w) nasty = Some paths ->
  listings (eos w) paths = Some answers ->
  exists w',
    analyzeNasty nasty w = Done tt w' /\
    File <$> heap w' = File <$> heap w /\
    events w' = events w ++ listingEvents paths nasty /\
    eos w' = storeAfter (eos w) (listingEvents paths nasty) /\
    forall i p versions,
      lastAt nasty i p -> answers !! i = Some versions ->
      exists r, heap w' !! p = Some r /\ Versions r = versions /\ Handled r = true.
Proof.
  intros Hpaths Hanswers.
  destruct (analyzeNasty_answers nasty w paths answers Hpaths Hanswers)
    as (w' & Hrun & _ & Hfiles & Hev & Heos & Hall).
  by exists w'.
Qed.

End ResolverCalls.

(** X15 at the three records. *)
Lemma analyze_lists_each_record_once_witness :
  exists res w',
    analyze (rt:=go118) [0; 1; 2]%nat [] (mkWorld threeRecords storeThreeFiles [])
      = Done res w' /\
    File <$> heap w' = File <$> threeRecords /\
    events w' = [] ++ listingEvents [emptyPath; uploadPath; samplePath] [0; 1; 2]%nat /\
    eos w' = storeAfter storeThreeFiles
               (listingEvents [emptyPath; uploadPath; samplePath] [0; 1; 2]%nat) /\
    (forall i p versions,
       lastAt [0; 1; 2]%nat i p ->
       [[]; uploadVersions; [version90; version100]] !! i = Some versions ->
       exists r, heap w' !! p = Some r /\
         Versions r = sortVersions (rt:=go118) versions) /\
    Versions <$> heap w' = [[]; reverse uploadVersions; [version100; version90]].
Proof.
  destruct (analyze_lists_each_record_once (rt:=go118) [0; 1; 2]%nat []
              (mkWorld threeRecords storeThreeFiles [])
              [emptyPath; uploadPath; samplePath]
              [[]; uploadVersions; [version90; version100]])
    as (res & w' & Hrun & Hfiles & Hev & Heos & Hall); [by vm_compute..|].
  exists res, w'. repeat (split; [assumption|]).
  vm_compute in Hrun. injection Hrun as <- <-. reflexivity.
Defined.

(** X16 at the three records, the second of them listed twice. *)
Lemma analyzeNasty_lists_each_record_once_witness :
  exists w',
    analyzeNasty [1; 0; 1; 2]%nat (mkWorld threeRecords storeThreeFiles [])
      = Done tt w' /\
    File <$> heap w' = File <$> threeRecords /\
    events w' = [] ++ listingEvents [uploadPath; emptyPath; uploadPath; samplePath]
                        [1; 0; 1; 2]%nat /\
    eos w' = storeAfter storeThreeFiles
               (listingEvents [uploadPath; emptyPath; uploadPath; samplePath]
                  [1; 0; 1; 2]%nat) /\
    (forall i p versions,
       lastAt [1; 0; 1; 2]%nat i p ->
       [uploadVersions; []; uploadVersions; [version90; version100]] !! i
         = Some versions ->
       exists r, heap w' !! p = Some r /\ Versions r = versions /\ Handled r = true) /\
    Versions <$> heap w' = [[]; uploadVersions; [version90; version100]].
Proof.
  destruct (analyzeNasty_lists_each_record_once [1; 0; 1; 2]%nat
              (mkWorld threeRecords storeThreeFiles [])
              [uploadPath; emptyPath; uploadPath; samplePath]
              [uploadVersions; []; uploadVersions; [version90; version100]])
    as (w' & Hrun & Hfiles & Hev & Heos & Hall); [by vm_compute..|].
  exists w'. repeat (split; [assumption|]).
  vm_compute in Hrun. injection Hrun as <-. reflexivity.
Defined.

